(** * The linkifyjs scanner (packages/linkifyjs/src/scanner.mjs)

    A shallow embedding of the character-level scanner: [stringToArray],
    [init] (building the character state machine) and [run] (greedy
    longest-match tokenisation with rollback).

    JavaScript strings are modelled as lists of UTF-16 code units ([list Z]);
    a JavaScript object used as a map of transitions is an association list
    whose most recent binding shadows older ones. *)

From Stdlib Require Import String Ascii ZArith List Bool Lia Sorting.Sorted
  Sorting.Permutation.
From Stdlib Require DecimalNat.
Import ListNotations.
Open Scope Z_scope.

(** ** Strings as UTF-16 code units *)

Definition jsstr := list Z.

(** A JavaScript string literal written with ASCII characters only. *)
Definition js (s : string) : jsstr :=
  map (fun a => Z.of_nat (nat_of_ascii a)) (list_ascii_of_string s).

Definition jsstr_eqb (a b : jsstr) : bool :=
  if list_eq_dec Z.eq_dec a b then true else false.

(** [str.replace(/[A-Z]/g, (c) => c.toLowerCase())] *)
Definition lower_ascii (c : Z) : Z :=
  if (65 <=? c) && (c <=? 90) then c + 32 else c.

Definition replace_upper (s : jsstr) : jsstr := map lower_ascii s.

(** The converse used to state case insensitivity: ASCII a-z to A-Z. *)
Definition upper_ascii (s : jsstr) : jsstr :=
  map (fun c => if (97 <=? c) && (c <=? 122) then c - 32 else c) s.

(** [str.slice(b, e)] for integer arguments. *)
Definition js_slice (s : jsstr) (b e : Z) : jsstr :=
  let len := Z.of_nat (length s) in
  let norm x := if x <? 0 then Z.max (len + x) 0 else Z.min x len in
  let b' := norm b in
  let e' := norm e in
  firstn (Z.to_nat (e' - b')) (skipn (Z.to_nat b') s).

(** ** [stringToArray] *)

Definition is_high (c : Z) : bool := (0xd800 <=? c) && (c <=? 0xdbff).
Definition is_low (c : Z) : bool := (0xdc00 <=? c) && (c <=? 0xdfff).

(** One iteration of the loop reads [first] at [index]; the single-character
    branch is taken when [first < 0xd800 || first > 0xdbff ||
    index + 1 === len || second < 0xdc00 || second > 0xdfff]. *)
Fixpoint stringToArray (str : jsstr) : list jsstr :=
  match str with
  | [] => []
  | first :: rest =>
      match rest with
      | [] => [[first]]
      | second :: rest' =>
          if (first <? 0xd800) || (0xdbff <? first)
             || (second <? 0xdc00) || (0xdfff <? second)
          then [first] :: stringToArray rest
          else [first; second] :: stringToArray rest'
      end
  end.

Definition is_pair (x : jsstr) : Prop :=
  exists h l, x = [h; l] /\ is_high h = true /\ is_low l = true.

(** ** Token names, group flags and character classes

    Modelled from the spec: [text.mjs], [fsm.mjs] and [regexp.mjs] are not
    part of the sources; token names are the strings naming them, group
    flags the names of the spec's flags, and the character classes
    DIGIT, ASCII_LETTER, LETTER, SPACE and EMOJI are kept abstract (a
    [regex.test(input)] predicate, see [test] below). *)
Module tk.
Definition APOSTROPHE := js "APOSTROPHE".
Definition OPENBRACE := js "OPENBRACE".
Definition CLOSEBRACE := js "CLOSEBRACE".
Definition OPENBRACKET := js "OPENBRACKET".
Definition CLOSEBRACKET := js "CLOSEBRACKET".
Definition OPENPAREN := js "OPENPAREN".
Definition CLOSEPAREN := js "CLOSEPAREN".
Definition OPENANGLEBRACKET := js "OPENANGLEBRACKET".
Definition CLOSEANGLEBRACKET := js "CLOSEANGLEBRACKET".
Definition FULLWIDTHLEFTPAREN := js "FULLWIDTHLEFTPAREN".
Definition FULLWIDTHRIGHTPAREN := js "FULLWIDTHRIGHTPAREN".
Definition LEFTCORNERBRACKET := js "LEFTCORNERBRACKET".
Definition RIGHTCORNERBRACKET := js "RIGHTCORNERBRACKET".
Definition LEFTWHITECORNERBRACKET := js "LEFTWHITECORNERBRACKET".
Definition RIGHTWHITECORNERBRACKET := js "RIGHTWHITECORNERBRACKET".
Definition FULLWIDTHLESSTHAN := js "FULLWIDTHLESSTHAN".
Definition FULLWIDTHGREATERTHAN := js "FULLWIDTHGREATERTHAN".
Definition AMPERSAND := js "AMPERSAND".
Definition ASTERISK := js "ASTERISK".
Definition AT := js "AT".
Definition BACKTICK := js "BACKTICK".
Definition CARET := js "CARET".
Definition COLON := js "COLON".
Definition COMMA := js "COMMA".
Definition DOLLAR := js "DOLLAR".
Definition DOT := js "DOT".
Definition EQUALS := js "EQUALS".
Definition EXCLAMATION := js "EXCLAMATION".
Definition HYPHEN := js "HYPHEN".
Definition PERCENT := js "PERCENT".
Definition PIPE := js "PIPE".
Definition PLUS := js "PLUS".
Definition POUND := js "POUND".
Definition QUERY := js "QUERY".
Definition QUOTE := js "QUOTE".
Definition SLASH := js "SLASH".
Definition SEMI := js "SEMI".
Definition TILDE := js "TILDE".
Definition UNDERSCORE := js "UNDERSCORE".
Definition BACKSLASH := js "BACKSLASH".
Definition FULLWIDTHMIDDLEDOT := js "FULLWIDTHMIDDLEDOT".
Definition NUM := js "NUM".
Definition ASCIINUMERICAL := js "ASCIINUMERICAL".
Definition ALPHANUMERICAL := js "ALPHANUMERICAL".
Definition WORD := js "WORD".
Definition UWORD := js "UWORD".
Definition NL := js "NL".
Definition WS := js "WS".
Definition EMOJI := js "EMOJI".
Definition TLD := js "TLD".
Definition UTLD := js "UTLD".
Definition SCHEME := js "SCHEME".
Definition SLASH_SCHEME := js "SLASH_SCHEME".
Definition LOCALHOST := js "LOCALHOST".
Definition SYM := js "SYM".
End tk.

Module fsm.
Definition numeric := js "numeric".
Definition asciinumeric := js "asciinumeric".
Definition alpha := js "alpha".
Definition alphanumeric := js "alphanumeric".
Definition ascii := js "ascii".
Definition emoji := js "emoji".
Definition scheme := js "scheme".
Definition slashscheme := js "slashscheme".
Definition tld := js "tld".
Definition utld := js "utld".
Definition domain := js "domain".
Definition whitespace := js "whitespace".
End fsm.

Module re.
Inductive cls := DIGIT | ASCII_LETTER | LETTER | SPACE | EMOJI.
End re.
Import re.

(** ** The state machine primitive

    Modelled from the spec (section 4.1, [fsm.mjs] is not in the sources):
    a node has a token tag [t] (the empty string for none: [accepts] is
    [!!this.t]), literal transitions [j], class transitions [jr] tried in
    insertion order (a class transition may have no target, it is then
    skipped) and a default transition [jd].  Nodes live in an arena and
    are named by their index. *)
Record State := mkState {
  t : jsstr;
  j : list (jsstr * nat);
  jr : list (cls * option nat);
  jd : option nat
}.

Definition empty_state : State := mkState [] [] [] None.

Definition Arena := list State.

Definition node (A : Arena) (i : nat) : State := nth i A empty_state.

Definition accepts (st : State) : bool :=
  match t st with [] => false | _ => true end.

Fixpoint lookup (k : jsstr) (m : list (jsstr * nat)) : option nat :=
  match m with
  | [] => None
  | (k', n) :: m' => if jsstr_eqb k k' then Some n else lookup k m'
  end.

Section Go.
(** [regex.test(input)] for each character class. *)
Variable test : cls -> jsstr -> bool.

Fixpoint go_class (l : list (cls * option nat)) (input : jsstr) : option nat :=
  match l with
  | [] => None
  | (c, Some n) :: l' => if test c input then Some n else go_class l' input
  | (c, None) :: l' => go_class l' input
  end.

(** [State.go]: literal transition, then class transitions in order, then
    the default transition. *)
Definition go (A : Arena) (s : nat) (input : jsstr) : option nat :=
  let st := node A s in
  match lookup input (j st) with
  | Some n => Some n
  | None =>
      match go_class (jr st) input with
      | Some n => Some n
      | None => jd st
      end
  end.
End Go.

(** ** Building the machine: a state monad over the arena and the groups

    [groups] records [addToGroups]: a pair (flag, token) for every flag set
    for a token. *)
Record Builder := mkBuilder { arena : Arena; groups : list (jsstr * jsstr) }.

Definition M (X : Type) := Builder -> X * Builder.
Definition ret {X} (x : X) : M X := fun b => (x, b).
Definition bind {X Y} (m : M X) (f : X -> M Y) : M Y :=
  fun b => let (x, b') := m b in f x b'.

Notation "'let*' x ':=' m 'in' f" := (bind m (fun x => f))
  (at level 200, x name, m at level 100, f at level 200).
Notation "m ;; f" := (bind m (fun _ => f))
  (at level 100, f at level 200).

Fixpoint upd_nth {X} (i : nat) (f : X -> X) (l : list X) : list X :=
  match l, i with
  | [], _ => []
  | x :: l', O => f x :: l'
  | x :: l', S i' => x :: upd_nth i' f l'
  end.

Definition modify_node (s : nat) (f : State -> State) : M unit :=
  fun b => (tt, mkBuilder (upd_nth s f (arena b)) (groups b)).

Definition get_node (s : nat) : M State := fun b => (node (arena b) s, b).

(** [new State(t)], with the class transitions [jr] given at creation. *)
Definition new_state (tg : jsstr) (jrl : list (cls * option nat)) : M nat :=
  fun b => (length (arena b),
            mkBuilder (arena b ++ [mkState tg [] jrl None]) (groups b)).

(** [state.j[input] = next] *)
Definition set_j (s : nat) (input : jsstr) (n : nat) : M unit :=
  modify_node s (fun st => mkState (t st) ((input, n) :: j st) (jr st) (jd st)).

(** [state.jr.push([regexp, next])] *)
Definition push_jr (s : nat) (e : cls * option nat) : M unit :=
  modify_node s (fun st => mkState (t st) (j st) (jr st ++ [e]) (jd st)).

(** [state.jd = next] *)
Definition set_jd (s : nat) (n : nat) : M unit :=
  modify_node s (fun st => mkState (t st) (j st) (jr st) (Some n)).

(** [addToGroups(t, flags, groups)] *)
Definition addToGroups (tg : jsstr) (flags : list jsstr) : M unit :=
  fun b => (tt, mkBuilder (arena b) (groups b ++ map (fun f => (f, tg)) flags)).

(** The [next] argument of [tt]/[tr]/[ts]: absent, a token (with its
    flags), or an existing state. *)
Inductive target := TNone | TTag (tg : jsstr) (flags : list jsstr) | TNode (n : nat).

(** Modelled from the spec ([add_literal], [fsm.mjs] is not in the
    sources): with no target the existing literal transition is reused, or
    a fresh non-accepting node is created; a token target creates a fresh
    node accepting that token; a state target is linked directly. *)
Definition tt (s : nat) (input : jsstr) (next : target) : M nat :=
  match next with
  | TNode n => set_j s input n ;; ret n
  | TNone =>
      let* st := get_node s in
      match lookup input (j st) with
      | Some n => ret n
      | None => let* n := new_state [] [] in set_j s input n ;; ret n
      end
  | TTag tg flags =>
      addToGroups tg flags ;;
      let* n := new_state tg [] in set_j s input n ;; ret n
  end.

(** Modelled from the spec ([add_class]): same, for a class transition. *)
Definition tr (s : nat) (c : cls) (next : target) : M nat :=
  match next with
  | TNode n => push_jr s (c, Some n) ;; ret n
  | TNone => let* n := new_state [] [] in push_jr s (c, Some n) ;; ret n
  | TTag tg flags =>
      addToGroups tg flags ;;
      let* n := new_state tg [] in push_jr s (c, Some n) ;; ret n
  end.

(** Modelled from the spec: [ts] adds the chain of literal transitions for
    the code units of [input], the intermediate ones with [tt] and no
    target, the last one with [next]; an empty input leaves [s]. *)
Fixpoint ts_loop (s : nat) (cs : list Z) : M nat :=
  match cs with
  | [] => ret s
  | c :: cs' => let* s' := tt s [c] TNone in ts_loop s' cs'
  end.

Definition ts (s : nat) (input : jsstr) (next : target) : M nat :=
  match input with
  | [] => ret s
  | _ =>
      let* st := ts_loop s (removelast input) in
      tt st [last input 0] next
  end.

(** [fastts] (scanner.mjs): intermediate nodes are reused when present and
    otherwise created accepting [defaultt] with a copy of [jr]; the last
    node is always created, accepting [t].  For an empty input,
    [input[len - 1]] is [undefined], used as the key ["undefined"]. *)
Fixpoint fastts_loop (s : nat) (cs : list Z) (defaultt : jsstr)
    (jrl : list (cls * option nat)) : M nat :=
  match cs with
  | [] => ret s
  | c :: cs' =>
      let* st := get_node s in
      match lookup [c] (j st) with
      | Some n => fastts_loop n cs' defaultt jrl
      | None =>
          let* n := new_state defaultt jrl in
          set_j s [c] n ;; fastts_loop n cs' defaultt jrl
      end
  end.

Definition last_key (input : jsstr) : jsstr :=
  match input with [] => js "undefined" | _ => [last input 0] end.

Definition fastts (s : nat) (input : jsstr) (tg defaultt : jsstr)
    (jrl : list (cls * option nat)) : M nat :=
  let* st := fastts_loop s (removelast input) defaultt jrl in
  let* n := new_state tg jrl in
  set_j st (last_key input) n ;; ret n.

Fixpoint for_each {X} (l : list X) (f : X -> M unit) : M unit :=
  match l with
  | [] => ret Datatypes.tt
  | x :: l' => f x ;; for_each l' f
  end.

Definition CR : Z := 13.
Definition LF : Z := 10.
Definition EMOJI_VARIATION : Z := 0xfe0f.
Definition EMOJI_JOINER : Z := 0x200d.
Definition OBJECT_REPLACEMENT : Z := 0xfffc.

(** JavaScript's [a > b] on strings: lexicographic on code units. *)
Fixpoint js_gtb (a b : jsstr) : bool :=
  match a, b with
  | [], _ => false
  | _ :: _, [] => true
  | x :: a', y :: b' => if x =? y then js_gtb a' b' else y <? x
  end.

(** The comparator [(a, b) => (a[0] > b[0] ? 1 : -1)]. *)
Definition scheme_cmp (a b : jsstr * bool) : Z :=
  if js_gtb (fst a) (fst b) then 1 else -1.

(** [Array.prototype.sort] with that comparator, as an insertion sort
    placing each element before the first one it does not compare
    greater than (the binary insertion sort of V8 on short arrays, in
    linear form). *)
Fixpoint sort_insert (x : jsstr * bool) (l : list (jsstr * bool)) :=
  match l with
  | [] => [x]
  | y :: l' => if scheme_cmp x y <? 0 then x :: y :: l' else y :: sort_insert x l'
  end.

Fixpoint js_sort (l : list (jsstr * bool)) : list (jsstr * bool) :=
  match l with
  | [] => []
  | x :: l' => sort_insert x (js_sort l')
  end.

Section Scanner.
Variable test : cls -> jsstr -> bool.
(** The decoded lists [tlds] and [utlds] ([tlds.mjs] is not in the
    sources). *)
Variables tlds utlds : list jsstr.

(** The flags of a custom scheme, lines 186-195. *)
Definition custom_flags (sch : jsstr) (optionalSlashSlash : bool) : list jsstr :=
  let base := if optionalSlashSlash then fsm.scheme else fsm.slashscheme in
  if existsb (Z.eqb 45) sch then [base; fsm.domain]
  else if negb (test ASCII_LETTER sch) then [base; fsm.numeric]
  else if test DIGIT sch then [base; fsm.asciinumeric]
  else [base; fsm.ascii].

Definition register_custom (Start : nat) (sc : jsstr * bool) : M unit :=
  let sch := fst sc in
  ts Start sch (TTag sch (custom_flags sch (snd sc))) ;; ret Datatypes.tt.

(** [init]: lines 42-206.  The result is the start state; the state
    machine is the builder's arena. *)
Definition init (customSchemes : list (jsstr * bool)) : M nat :=
  let* Start := new_state [] [] in
  tt Start (js "'") (TTag tk.APOSTROPHE []) ;;
  tt Start (js "{") (TTag tk.OPENBRACE []) ;;
  tt Start (js "}") (TTag tk.CLOSEBRACE []) ;;
  tt Start (js "[") (TTag tk.OPENBRACKET []) ;;
  tt Start (js "]") (TTag tk.CLOSEBRACKET []) ;;
  tt Start (js "(") (TTag tk.OPENPAREN []) ;;
  tt Start (js ")") (TTag tk.CLOSEPAREN []) ;;
  tt Start (js "<") (TTag tk.OPENANGLEBRACKET []) ;;
  tt Start (js ">") (TTag tk.CLOSEANGLEBRACKET []) ;;
  tt Start ([0xff08]) (TTag tk.FULLWIDTHLEFTPAREN []) ;;
  tt Start ([0xff09]) (TTag tk.FULLWIDTHRIGHTPAREN []) ;;
  tt Start ([0x300c]) (TTag tk.LEFTCORNERBRACKET []) ;;
  tt Start ([0x300d]) (TTag tk.RIGHTCORNERBRACKET []) ;;
  tt Start ([0x300e]) (TTag tk.LEFTWHITECORNERBRACKET []) ;;
  tt Start ([0x300f]) (TTag tk.RIGHTWHITECORNERBRACKET []) ;;
  tt Start ([0xff1c]) (TTag tk.FULLWIDTHLESSTHAN []) ;;
  tt Start ([0xff1e]) (TTag tk.FULLWIDTHGREATERTHAN []) ;;
  tt Start (js "&") (TTag tk.AMPERSAND []) ;;
  tt Start (js "*") (TTag tk.ASTERISK []) ;;
  tt Start (js "@") (TTag tk.AT []) ;;
  tt Start (js "`") (TTag tk.BACKTICK []) ;;
  tt Start (js "^") (TTag tk.CARET []) ;;
  tt Start (js ":") (TTag tk.COLON []) ;;
  tt Start (js ",") (TTag tk.COMMA []) ;;
  tt Start (js "$") (TTag tk.DOLLAR []) ;;
  tt Start (js ".") (TTag tk.DOT []) ;;
  tt Start (js "=") (TTag tk.EQUALS []) ;;
  tt Start (js "!") (TTag tk.EXCLAMATION []) ;;
  tt Start (js "-") (TTag tk.HYPHEN []) ;;
  tt Start (js "%") (TTag tk.PERCENT []) ;;
  tt Start (js "|") (TTag tk.PIPE []) ;;
  tt Start (js "+") (TTag tk.PLUS []) ;;
  tt Start (js "#") (TTag tk.POUND []) ;;
  tt Start (js "?") (TTag tk.QUERY []) ;;
  tt Start ([34]) (TTag tk.QUOTE []) ;;
  tt Start (js "/") (TTag tk.SLASH []) ;;
  tt Start (js ";") (TTag tk.SEMI []) ;;
  tt Start (js "~") (TTag tk.TILDE []) ;;
  tt Start (js "_") (TTag tk.UNDERSCORE []) ;;
  tt Start ([92]) (TTag tk.BACKSLASH []) ;;
  tt Start ([0x30fb]) (TTag tk.FULLWIDTHMIDDLEDOT []) ;;
  let* Num := tr Start DIGIT (TTag tk.NUM [fsm.numeric]) in
  tr Num DIGIT (TNode Num) ;;
  let* Asciinumeric := tr Num ASCII_LETTER (TTag tk.ASCIINUMERICAL [fsm.asciinumeric]) in
  let* Alphanumeric := tr Num LETTER (TTag tk.ALPHANUMERICAL [fsm.alphanumeric]) in
  let* Word := tr Start ASCII_LETTER (TTag tk.WORD [fsm.ascii]) in
  tr Word DIGIT (TNode Asciinumeric) ;;
  tr Word ASCII_LETTER (TNode Word) ;;
  tr Asciinumeric DIGIT (TNode Asciinumeric) ;;
  tr Asciinumeric ASCII_LETTER (TNode Asciinumeric) ;;
  let* UWord := tr Start LETTER (TTag tk.UWORD [fsm.alpha]) in
  tr UWord ASCII_LETTER TNone ;;
  tr UWord DIGIT (TNode Alphanumeric) ;;
  tr UWord LETTER (TNode UWord) ;;
  tr Alphanumeric DIGIT (TNode Alphanumeric) ;;
  tr Alphanumeric ASCII_LETTER TNone ;;
  tr Alphanumeric LETTER (TNode Alphanumeric) ;;
  let* Nl := tt Start [LF] (TTag tk.NL [fsm.whitespace]) in
  let* Cr := tt Start [CR] (TTag tk.WS [fsm.whitespace]) in
  let* Ws := tr Start SPACE (TTag tk.WS [fsm.whitespace]) in
  tt Start [OBJECT_REPLACEMENT] (TNode Ws) ;;
  tt Cr [LF] (TNode Nl) ;;
  tt Cr [OBJECT_REPLACEMENT] (TNode Ws) ;;
  tr Cr SPACE (TNode Ws) ;;
  tt Ws [CR] TNone ;;
  tt Ws [LF] TNone ;;
  tr Ws SPACE (TNode Ws) ;;
  tt Ws [OBJECT_REPLACEMENT] (TNode Ws) ;;
  let* Emoji := tr Start EMOJI (TTag tk.EMOJI [fsm.emoji]) in
  tt Emoji (js "#") TNone ;;
  tr Emoji EMOJI (TNode Emoji) ;;
  tt Emoji [EMOJI_VARIATION] (TNode Emoji) ;;
  let* EmojiJoiner := tt Emoji [EMOJI_JOINER] TNone in
  tt EmojiJoiner (js "#") TNone ;;
  tr EmojiJoiner EMOJI (TNode Emoji) ;;
  let wordjr := [(ASCII_LETTER, Some Word); (DIGIT, Some Asciinumeric)] in
  let uwordjr := [(ASCII_LETTER, None); (LETTER, Some UWord);
                  (DIGIT, Some Alphanumeric)] in
  for_each tlds (fun w => fastts Start w tk.TLD tk.WORD wordjr ;; ret Datatypes.tt) ;;
  for_each utlds (fun w => fastts Start w tk.UTLD tk.UWORD uwordjr ;; ret Datatypes.tt) ;;
  addToGroups tk.TLD [fsm.tld; fsm.ascii] ;;
  addToGroups tk.UTLD [fsm.utld; fsm.alpha] ;;
  fastts Start (js "file") tk.SCHEME tk.WORD wordjr ;;
  fastts Start (js "mailto") tk.SCHEME tk.WORD wordjr ;;
  fastts Start (js "http") tk.SLASH_SCHEME tk.WORD wordjr ;;
  fastts Start (js "https") tk.SLASH_SCHEME tk.WORD wordjr ;;
  fastts Start (js "ftp") tk.SLASH_SCHEME tk.WORD wordjr ;;
  fastts Start (js "ftps") tk.SLASH_SCHEME tk.WORD wordjr ;;
  addToGroups tk.SCHEME [fsm.scheme; fsm.ascii] ;;
  addToGroups tk.SLASH_SCHEME [fsm.slashscheme; fsm.ascii] ;;
  for_each (js_sort customSchemes) (register_custom Start) ;;
  ts Start (js "localhost") (TTag tk.LOCALHOST [fsm.ascii]) ;;
  let* Sym := new_state tk.SYM [] in
  set_jd Start Sym ;;
  ret Start.

End Scanner.

(** ** [run] (lines 217-275) *)

(** Scanner output token [{t, v, s, e}]. *)
Record Token := mkToken { tok_t : jsstr; tok_v : jsstr; tok_s : Z; tok_e : Z }.

(** [run] either returns its tokens or throws a [TypeError] (reading
    [latestAccepting.t] when [latestAccepting] is [null]); [OutOfFuel] is
    the model's bound on the outer loop, never reached (see C10). *)
Inductive outcome := Ok (tokens : list Token) | TypeError | OutOfFuel.

(** The variables of the inner loop. *)
Record Loop := mkLoop {
  state : nat; tokenLength : Z; latestAccepting : option nat;
  sinceAccepts : Z; charsSinceAccepts : Z; cursor : Z; charCursor : Z }.

Section Run.
Variable test : cls -> jsstr -> bool.
Variable A : Arena.

(** The inner [while] loop, lines 242-258; [rest] is the suffix of
    [iterable] from [charCursor] on. *)
Fixpoint inner (rest : list jsstr) (l : Loop) : Loop :=
  match rest with
  | [] => l
  | c :: rest' =>
      match go test A (state l) c with
      | None => l
      | Some nextState =>
          let len := Z.of_nat (length c) in
          let '(sa, csa, la) :=
            if accepts (node A nextState) then (0, 0, Some nextState)
            else if sinceAccepts l >=? 0
            then (sinceAccepts l + len, charsSinceAccepts l + 1, latestAccepting l)
            else (sinceAccepts l, charsSinceAccepts l, latestAccepting l) in
          inner rest' (mkLoop nextState (tokenLength l + len) la sa csa
                         (cursor l + len) (charCursor l + 1))
      end
  end.

(** The outer [while] loop, lines 234-272. *)
Fixpoint outer (str : jsstr) (iterable : list jsstr) (charCount : Z) (start : nat)
    (fuel : nat) (cursor0 charCursor0 : Z) (tokens : list Token) : outcome :=
  if charCursor0 <? charCount then
    match fuel with
    | O => OutOfFuel
    | S fuel' =>
        let l := inner (skipn (Z.to_nat charCursor0) iterable)
                   (mkLoop start 0 None (-1) (-1) cursor0 charCursor0) in
        let cursor1 := cursor l - sinceAccepts l in
        let charCursor1 := charCursor l - charsSinceAccepts l in
        let tokenLength1 := tokenLength l - sinceAccepts l in
        match latestAccepting l with
        | None => TypeError
        | Some la =>
            outer str iterable charCount start fuel' cursor1 charCursor1
              (tokens ++ [mkToken (t (node A la))
                            (js_slice str (cursor1 - tokenLength1) cursor1)
                            (cursor1 - tokenLength1) cursor1])
        end
    end
  else Ok tokens.

Definition run (start : nat) (str : jsstr) : outcome :=
  let iterable := stringToArray (replace_upper str) in
  let charCount := Z.of_nat (length iterable) in
  outer str iterable charCount start (length iterable) 0 0 [].
End Run.

(** The scanner as the library builds it: [init] from an empty builder,
    then [run] on its start state. *)
Definition scanner (test : cls -> jsstr -> bool) (tlds utlds : list jsstr)
    (customSchemes : list (jsstr * bool)) : nat * Builder :=
  init test tlds utlds customSchemes (mkBuilder [] []).

Definition tokenize test tlds utlds customSchemes (str : jsstr) : outcome :=
  let (start, b) := scanner test tlds utlds customSchemes in
  run test (arena b) start str.

(** A sample instantiation of the character classes, used to evaluate the
    scanner on concrete inputs: ASCII digits, ASCII lower-case letters,
    ASCII letters, ASCII blanks, and as emoji the keycap bases [#], [*],
    the digits and the pair U+1F600. *)
Definition sample_test (c : cls) (s : jsstr) : bool :=
  match c with
  | DIGIT => existsb (fun x => (48 <=? x) && (x <=? 57)) s
  | ASCII_LETTER => existsb (fun x => (97 <=? x) && (x <=? 122)) s
  | LETTER => existsb (fun x => ((97 <=? x) && (x <=? 122)) || ((65 <=? x) && (x <=? 90))) s
  | SPACE => existsb (fun x => (x =? 32) || ((9 <=? x) && (x <=? 13))) s
  | EMOJI => jsstr_eqb s [0xd83d; 0xde00] || existsb (fun x => (x =? 35) || (x =? 42) || ((48 <=? x) && (x <=? 57))) s
  end.

(** ** Vocabulary for the statements about [run] *)

(** The state reached from [s] by stepping with [go] on each character. *)
Fixpoint go_path (test : cls -> jsstr -> bool) (A : Arena) (s : nat)
    (cs : list jsstr) : option nat :=
  match cs with
  | [] => Some s
  | c :: cs' =>
      match go test A s c with
      | Some n => go_path test A n cs'
      | None => None
      end
  end.

(** Number of code units of a list of characters. *)
Definition sumlen (cs : list jsstr) : Z := Z.of_nat (length (concat cs)).

(** The tokens emitted for a cut of the characters into segments, the
    first one starting at code unit [p]: the tag is that of the state the
    segment leads to. *)
Fixpoint tokens_of (test : cls -> jsstr -> bool) (A : Arena) (start : nat)
    (str : jsstr) (p : Z) (segs : list (list jsstr)) : list Token :=
  match segs with
  | [] => []
  | sg :: segs' =>
      let tg := match go_path test A start sg with
                | Some la => t (node A la) | None => [] end in
      mkToken tg (js_slice str p (p + sumlen sg)) p (p + sumlen sg)
        :: tokens_of test A start str (p + sumlen sg) segs'
  end.

(** [tiles p toks q]: the tokens' spans are contiguous, the first starts at
    [p] and the last ends at [q]. *)
Fixpoint tiles (p : Z) (toks : list Token) (q : Z) : Prop :=
  match toks with
  | [] => p = q
  | tok :: toks' => tok_s tok = p /\ tiles (tok_e tok) toks' q
  end.

(** An outcome with the token values erased: tags and offsets only. *)
Definition shape (o : outcome) : outcome :=
  match o with
  | Ok toks => Ok (map (fun tok => mkToken (tok_t tok) [] (tok_s tok) (tok_e tok)) toks)
  | o => o
  end.

(** The invariant of the inner loop once a first accepting state has been
    seen: [done] are the characters consumed since the token started at
    code unit [cur0] and character [cc0]; the latest accepting state was
    reached after the first [k] of them. *)
Definition inner_inv (test : cls -> jsstr -> bool) (A : Arena) (start : nat)
    (cur0 cc0 : Z) (done : list jsstr) (l : Loop) : Prop :=
  go_path test A start done = Some (state l) /\
  tokenLength l = sumlen done /\
  cursor l = cur0 + sumlen done /\
  charCursor l = cc0 + Z.of_nat (length done) /\
  exists k la, latestAccepting l = Some la /\ (1 <= k <= length done)%nat /\
    go_path test A start (firstn k done) = Some la /\
    accepts (node A la) = true /\
    charsSinceAccepts l = Z.of_nat (length done - k) /\
    sinceAccepts l = sumlen (skipn k done).

(** ** Vocabulary for the statements about [init] *)

(** The code units given a literal transition out of the start state by
    lines 58-147: the symbols, LF, CR and U+FFFC. *)
Definition start_symbols : list Z :=
  [39; 123; 125; 91; 93; 40; 41; 60; 62; 0xff08; 0xff09; 0x300c; 0x300d;
   0x300e; 0x300f; 0xff1c; 0xff1e; 38; 42; 64; 96; 94; 58; 44; 36; 46; 61;
   33; 45; 37; 124; 43; 35; 63; 34; 47; 59; 126; 95; 92; 0x30fb;
   LF; CR; OBJECT_REPLACEMENT].

Definition start_keys : list jsstr := map (fun c => [c]) start_symbols.

(** The machine without TLDs, UTLDs and custom schemes, and its 58 first
    nodes: those created by lines 42-147. *)
Definition base_arena (test : cls -> jsstr -> bool) : Arena :=
  arena (snd (scanner test [] [] [])).

Definition phase1_arena (test : cls -> jsstr -> bool) : Arena :=
  firstn 58 (base_arena test).

(** A word registered by [fastts] or [ts] whose first code unit is not one
    of [start_symbols]. *)
Definition first_unit_fresh (w : jsstr) : Prop :=
  forall c, hd_error w = Some c -> ~ In c start_symbols.

(** Assumptions on the inputs of [init]: no registered word starts with a
    symbol, LF, CR or U+FFFC; every custom scheme of two or more code
    units, and [localhost], starts with the first code unit of a TLD. *)
Record inputs_ok (tlds utlds : list jsstr) (cs : list (jsstr * bool)) : Prop := {
  fresh_tlds : Forall first_unit_fresh tlds;
  fresh_utlds : Forall first_unit_fresh utlds;
  fresh_schemes : Forall (fun sc => first_unit_fresh (fst sc)) cs;
  schemes_like_tld : Forall (fun sc => (2 <= length (fst sc))%nat ->
      exists w, In w tlds /\ hd_error w = hd_error (fst sc)) cs;
  localhost_like_tld : exists w, In w tlds /\ hd_error w = Some 108
}.

(** The class transitions of the nodes created by [fastts]. *)
Definition jr_ok (wjr ujr l : list (cls * option nat)) : Prop :=
  l = [] \/ l = wjr \/ l = ujr.

(** The invariant of lines 149-201, relative to the arena [A1] built by
    lines 42-147: the nodes of [A1] other than the start state are left
    as they are; the start state keeps its tag, class transitions and the
    targets of [start_keys], its other literal transitions and its default
    transition lead to new accepting nodes; the new nodes only lead to new nodes, have no default
    transition, the class transitions [[]], [wjr] or [ujr], and a tag
    satisfying [okt]. *)
Record chain_inv (A1 : Arena) (wjr ujr : list (cls * option nat))
    (okt : jsstr -> Prop) (b : Builder) : Prop := {
  ci_len : (length A1 <= length (arena b))%nat;
  ci_old : forall i, (0 < i < length A1)%nat -> node (arena b) i = node A1 i;
  ci_start_t : t (node (arena b) 0) = t (node A1 0);
  ci_start_jr : jr (node (arena b) 0) = jr (node A1 0);
  ci_start_jd : forall n, jd (node (arena b) 0) = Some n ->
      (length A1 <= n < length (arena b))%nat /\ accepts (node (arena b) n) = true;
  ci_start_old : forall k, In k start_keys ->
      lookup k (j (node (arena b) 0)) = lookup k (j (node A1 0));
  ci_start_new : forall k n, ~ In k start_keys ->
      lookup k (j (node (arena b) 0)) = Some n ->
      (length A1 <= n < length (arena b))%nat /\ accepts (node (arena b) n) = true;
  ci_chain : forall i, (length A1 <= i < length (arena b))%nat ->
      (forall k n, lookup k (j (node (arena b) i)) = Some n ->
         (length A1 <= n < length (arena b))%nat) /\
      jd (node (arena b) i) = None /\
      jr_ok wjr ujr (jr (node (arena b) i)) /\
      okt (t (node (arena b) i))
}.

(** [has_key b s k]: state [s] has a literal transition on [k]. *)
Definition has_key (b : Builder) (s : nat) (k : jsstr) : Prop :=
  lookup k (j (node (arena b) s)) <> None.

(** A construction step that removes no literal transition. *)
Definition keeps_keys {X} (m : M X) : Prop :=
  forall b s k, has_key b s k -> has_key (snd (m b)) s k.

(** The machine built by [scanner]. *)
Definition scanner_arena test tlds utlds cs : Arena :=
  arena (snd (scanner test tlds utlds cs)).

(** Inputs of [init] used to evaluate the scanner: a few TLDs. *)
Definition sample_tlds : list jsstr := [js "com"; js "lol"; js "org"].

(** [inputs_ok] as a boolean test, for concrete inputs. *)
Definition first_unit_freshb (w : jsstr) : bool :=
  match w with [] => true | c :: _ => negb (existsb (Z.eqb c) start_symbols) end.

Definition hd_eqb (a b : option Z) : bool :=
  match a, b with
  | Some x, Some y => x =? y
  | None, None => true
  | _, _ => false
  end.

Definition inputs_okb (tlds utlds : list jsstr) (cs : list (jsstr * bool)) : bool :=
  forallb first_unit_freshb tlds && forallb first_unit_freshb utlds &&
  forallb (fun sc => first_unit_freshb (fst sc)) cs &&
  forallb (fun sc => Nat.ltb (length (fst sc)) 2 ||
             existsb (fun w => hd_eqb (hd_error w) (hd_error (fst sc))) tlds) cs &&
  existsb (fun w => hd_eqb (hd_error w) (Some 108)) tlds.

(** ** decodeTlds (lines 344-366)

    [digits.indexOf(c) >= 0] holds exactly for the code units of ['0'] to
    ['9']; past the end of the string [encoded[k]] is [undefined], which is
    not found either. *)
Definition is_digit (c : Z) : bool := (48 <=? c) && (c <=? 57).

(** The inner [while]: the length of the digit run starting at [i]. *)
Fixpoint count_digits (s : jsstr) : nat :=
  match s with c :: s' => if is_digit c then S (count_digits s') else O | [] => O end.

(** [parseInt(s, 10)] on a nonempty string of decimal digits. *)
Definition parseInt10 (ds : jsstr) : nat :=
  fold_left (fun acc d => acc * 10 + Z.to_nat (d - 48))%nat ds O.

(** [popCount] calls of [stack.pop()]; popping an empty array leaves it
    empty, as [removelast] does.  A JavaScript number above 2^53 is
    rounded, but still exceeds any stack length. *)
Definition pop_n (n : nat) (stack : jsstr) : jsstr := Nat.iter n (@removelast Z) stack.

(** The outer [while], with [stack] kept joined (its entries are single
    code units) and a fuel bound: each round advances [i]. *)
Fixpoint decode_loop (fuel : nat) (encoded : jsstr) (i : nat) (stack : jsstr)
    (words : list jsstr) : option (list jsstr) :=
  match fuel with
  | O => None
  | S fuel' =>
    if Nat.ltb i (length encoded) then
      let popDigitCount := count_digits (skipn i encoded) in
      if Nat.ltb 0 popDigitCount then
        decode_loop fuel' encoded (i + popDigitCount)%nat
          (pop_n (parseInt10 (firstn popDigitCount (skipn i encoded))) stack)
          (words ++ [stack])
      else decode_loop fuel' encoded (S i) (stack ++ [nth i encoded 0]) words
    else Some words
  end.

(** The fuel [length encoded + 1] always suffices, see
    [decodeTlds_no_digit]. *)
Definition decodeTlds (encoded : jsstr) : option (list jsstr) :=
  decode_loop (S (length encoded)) encoded 0 [] [].

(** A trie encoding in the format [decodeTlds] reads, used to state its
    round trip (the generator of [tlds.mjs] is not in the sources): each
    word is written as the units it adds to the shared prefix it keeps with
    the previous word, followed by the decimal count of units to drop before
    the next word. *)
Fixpoint uint_chars (d : Decimal.uint) : jsstr :=
  match d with
  | Decimal.Nil => []
  | Decimal.D0 d => 48 :: uint_chars d
  | Decimal.D1 d => 49 :: uint_chars d
  | Decimal.D2 d => 50 :: uint_chars d
  | Decimal.D3 d => 51 :: uint_chars d
  | Decimal.D4 d => 52 :: uint_chars d
  | Decimal.D5 d => 53 :: uint_chars d
  | Decimal.D6 d => 54 :: uint_chars d
  | Decimal.D7 d => 55 :: uint_chars d
  | Decimal.D8 d => 56 :: uint_chars d
  | Decimal.D9 d => 57 :: uint_chars d
  end.

Definition digits_of (n : nat) : jsstr := uint_chars (Nat.to_uint n).

Fixpoint lcp (a b : jsstr) : nat :=
  match a, b with
  | x :: a', y :: b' => if Z.eqb x y then S (lcp a' b') else O
  | _, _ => O
  end.

Fixpoint tld_items (ws : list jsstr) (prefix : jsstr) : list (jsstr * nat) :=
  match ws with
  | [] => []
  | w :: ws' =>
    let keep := match ws' with [] => O | w' :: _ => lcp w w' end in
    (skipn (length prefix) w, (length w - keep)%nat) :: tld_items ws' (firstn keep w)
  end.

(** A word list the encoding can represent: no word is a prefix of the
    word before it. *)
Fixpoint trie_orderb (ws : list jsstr) : bool :=
  match ws with
  | w :: ((w' :: _) as ws') => Nat.ltb (lcp w w') (length w') && trie_orderb ws'
  | _ => true
  end.

Definition item_chars (it : jsstr * nat) : jsstr := fst it ++ digits_of (snd it).

Definition encode_tlds (ws : list jsstr) : jsstr :=
  concat (map item_chars (tld_items ws [])).


Definition no_digit (w : jsstr) : Prop := Forall (fun c => is_digit c = false) w.

(** [longest test A start sg rest]: no prefix of [sg ++ rest] longer than
    [sg] leads from [start] to an accepting state (a failed step leads
    nowhere). *)
Definition longest test A start (sg rest : list jsstr) : Prop :=
  forall m, (length sg < m <= length sg + length rest)%nat ->
    match go_path test A start (firstn m (sg ++ rest)) with
    | Some s => accepts (node A s) = false
    | None => True
    end.

(** Every segment of a cut is the longest accepting prefix of what
    remains of the input from its start. *)
Fixpoint munch test A start (segs : list (list jsstr)) : Prop :=
  match segs with
  | [] => True
  | sg :: segs' => longest test A start sg (concat segs') /\ munch test A start segs'
  end.

(** In the inner loop of [run]: the characters read since the latest
    accepting state all lead to non-accepting states. *)
Definition after_accept test A start (done : list jsstr) (l : Loop) : Prop :=
  forall m, (length done - Z.to_nat (charsSinceAccepts l) < m <= length done)%nat ->
    exists s, go_path test A start (firstn m done) = Some s /\ accepts (node A s) = false.

(** The code units given a symbol token by lines 58-98. *)
Definition symbol_units : list Z := firstn 41 start_symbols.

(** A state with no transition at all. *)
Definition dead_end (st : State) : bool :=
  match j st, jr st, jd st with [], [], None => true | _, _, _ => false end.

(** The literal transition of the start state on [c] leads to one of the
    nodes created by lines 58-147, and that node has no transition. *)
Definition symbol_leaf (A : Arena) (c : Z) : bool :=
  match lookup [c] (j (node A 0)) with
  | Some n => Nat.ltb 0 n && Nat.ltb n 58 && dead_end (node A n)
  | None => false
  end.

(** Following literal transitions ([state.j[char]]) code unit by code
    unit. *)
Fixpoint walk (A : Arena) (s : nat) (cs : list Z) : option nat :=
  match cs with
  | [] => Some s
  | c :: cs' =>
      match lookup [c] (j (node A s)) with
      | Some n => walk A n cs'
      | None => None
      end
  end.

(** Every literal transition leads to a node created later. *)
Definition forward (A : Arena) : Prop :=
  forall i k n, lookup k (j (node A i)) = Some n -> (i < n < length A)%nat.

(** Every literal transition leads to a node created later. *)
Definition forwardb (A : Arena) : bool :=
  forallb (fun i => forallb (fun kn => Nat.ltb i (snd kn) && Nat.ltb (snd kn) (length A))
                      (j (node A i)))
    (seq 0 (length A)).

(** A builder holding a start state and the word [co] registered by
    [fastts], used to evaluate the statements about [fastts]. *)
Definition sample_builder : Builder :=
  snd (fastts 0 (js "co") tk.TLD tk.WORD [] (mkBuilder [empty_state] [])).

(** * Proofs *)

(** ** [stringToArray] *)

Lemma stringToArray_cons_single (first second : Z) (rest : jsstr) :
  (first <? 0xd800) || (0xdbff <? first) || (second <? 0xdc00) || (0xdfff <? second) = true ->
  stringToArray (first :: second :: rest) = [first] :: stringToArray (second :: rest).
Proof. intros H. simpl. now rewrite H. Qed.

Lemma stringToArray_cons_pair (first second : Z) (rest : jsstr) :
  (first <? 0xd800) || (0xdbff <? first) || (second <? 0xdc00) || (0xdfff <? second) = false ->
  stringToArray (first :: second :: rest) = [first; second] :: stringToArray rest.
Proof. intros H. simpl. now rewrite H. Qed.

(** Induction following the two branches of the loop. *)
Lemma stringToArray_ind (P : jsstr -> Prop) :
  P [] -> (forall c, P [c]) ->
  (forall first second rest,
      (first <? 0xd800) || (0xdbff <? first) || (second <? 0xdc00) || (0xdfff <? second) = true ->
      P (second :: rest) -> P (first :: second :: rest)) ->
  (forall first second rest,
      (first <? 0xd800) || (0xdbff <? first) || (second <? 0xdc00) || (0xdfff <? second) = false ->
      P rest -> P (first :: second :: rest)) ->
  forall s, P s.
Proof.
  intros H0 H1 Hs Hp s.
  remember (length s) as n eqn:E.
  revert s E. induction n as [n IH] using lt_wf_ind.
  intros [|first [|second rest]] E; auto.
  destruct ((first <? 0xd800) || (0xdbff <? first) || (second <? 0xdc00)
            || (0xdfff <? second)) eqn:C.
  - apply Hs; auto. eapply IH; [|reflexivity]. simpl in *. lia.
  - apply Hp; auto. eapply IH; [|reflexivity]. simpl in *. lia.
Qed.

Lemma pair_cond_false (first second : Z) :
  (first <? 0xd800) || (0xdbff <? first) || (second <? 0xdc00) || (0xdfff <? second) = false
  <-> is_high first = true /\ is_low second = true.
Proof.
  unfold is_high, is_low.
  rewrite !orb_false_iff, !andb_true_iff, !Z.ltb_ge, !Z.leb_le. lia.
Qed.

Lemma stringToArray_head (s : jsstr) (x : jsstr) (xs : list jsstr) :
  stringToArray s = x :: xs -> exists c s', s = c :: s' /\ hd_error x = Some c.
Proof.
  destruct s as [|c [|c2 s']]; simpl; try discriminate.
  - intros H. inversion H; subst. simpl. eauto.
  - destruct (_ || _); intros H; inversion H; subst; simpl; eauto.
Qed.

(** C8: [stringToArray s] cuts [s] into slices of one or two code units
    whose concatenation is [s]; a slice has two units exactly when it is a
    high surrogate followed by a low surrogate, and no such adjacent pair
    of [s] is split (a lone high-surrogate slice is never followed by a
    slice starting with a low surrogate). *)
Theorem stringToArray_slices (s : jsstr) :
  concat (stringToArray s) = s /\
  Forall (fun x => length x = 1%nat \/ length x = 2%nat) (stringToArray s) /\
  Forall (fun x => length x = 2%nat <-> is_pair x) (stringToArray s) /\
  (forall pre h y post,
      stringToArray s = pre ++ [h] :: y :: post ->
      is_high h = true -> forall l, hd_error y = Some l -> is_low l = false).
Proof.
  induction s using stringToArray_ind.
  - simpl. repeat split; try constructor. intros pre h y post H.
    destruct pre; discriminate.
  - simpl. split; [reflexivity|]. split; [repeat constructor; auto|].
    split.
    + constructor; [|constructor]. split; [discriminate|].
      intros [h [l [E _]]]. discriminate.
    + intros [|p pre] h y post H; simpl in H; inversion H; subst.
      destruct pre; discriminate.
  - rewrite stringToArray_cons_single by assumption.
    destruct IHs as [Hc [Hl [Hp Hn]]].
    split; [cbn [concat]; rewrite Hc; reflexivity|].
    split; [constructor; auto|].
    split.
    + constructor; auto. split; [discriminate|]. intros [h [l [E _]]]. discriminate.
    + intros [|p pre] h y post E Hh l Hy.
      * cbn [app] in E. injection E as Eh Ey. subst h.
        change (stringToArray (second :: rest) = y :: post) in Ey.
        apply stringToArray_head in Ey as [c [s' [Es Hc']]].
        injection Es as Ec _. subst c. rewrite Hy in Hc'.
        injection Hc' as Hll. subst l.
        destruct (is_low second) eqn:Hlow; auto.
        assert (Hf : (first <? 0xd800) || (0xdbff <? first) || (second <? 0xdc00)
                      || (0xdfff <? second) = false) by (apply pair_cond_false; auto).
        congruence.
      * cbn [app] in E. injection E as _ E. eapply Hn; eauto.
  - rewrite stringToArray_cons_pair by assumption.
    destruct IHs as [Hc [Hl [Hp Hn]]].
    apply pair_cond_false in H as [Hh Hlo].
    split; [cbn [concat]; rewrite Hc; reflexivity|].
    split; [constructor; auto|].
    split.
    + constructor; auto. split; [intros _; exists first, second; auto|auto].
    + intros [|p pre] h y post E Hh' l Hy.
      * cbn [app] in E. inversion E.
      * cbn [app] in E. injection E as _ E. eapply Hn; eauto.
Qed.

(** ** Generic facts about [run], for any state machine *)

Lemma replace_upper_upper (s : jsstr) : replace_upper (upper_ascii s) = replace_upper s.
Proof.
  unfold replace_upper, upper_ascii. rewrite map_map. apply map_ext. intros c.
  unfold lower_ascii.
  destruct ((97 <=? c) && (c <=? 122)) eqn:E1;
    destruct ((65 <=? c) && (c <=? 90)) eqn:E2;
    rewrite ?andb_true_iff, ?andb_false_iff, ?Z.leb_le, ?Z.leb_gt in *;
    try (destruct ((65 <=? c - 32) && (c - 32 <=? 90)) eqn:E3;
         rewrite ?andb_true_iff, ?andb_false_iff, ?Z.leb_le, ?Z.leb_gt in * );
    lia.
Qed.

Section RunFacts.
Variable test : cls -> jsstr -> bool.
Variable A : Arena.

Lemma outer_shape (str1 str2 : jsstr) it cc start fuel cur ccur toks1 toks2 :
  shape (Ok toks1) = shape (Ok toks2) ->
  shape (outer test A str1 it cc start fuel cur ccur toks1)
  = shape (outer test A str2 it cc start fuel cur ccur toks2).
Proof.
  revert cur ccur toks1 toks2.
  induction fuel as [|fuel IH]; intros cur ccur toks1 toks2 H; simpl.
  - destruct (ccur <? cc); auto.
  - destruct (ccur <? cc); auto.
    destruct (latestAccepting _); auto.
    apply IH. simpl in *. injection H as H. rewrite !map_app, H. reflexivity.
Qed.

Lemma outer_sliced (str : jsstr) it cc start fuel cur ccur toks :
  Forall (fun tok => tok_v tok = js_slice str (tok_s tok) (tok_e tok)) toks ->
  forall toks', outer test A str it cc start fuel cur ccur toks = Ok toks' ->
  Forall (fun tok => tok_v tok = js_slice str (tok_s tok) (tok_e tok)) toks'.
Proof.
  revert cur ccur toks.
  induction fuel as [|fuel IH]; intros cur ccur toks H toks' E; simpl in E.
  - destruct (ccur <? cc); inversion E; subst; auto.
  - destruct (ccur <? cc); [|inversion E; subst; auto].
    destruct (latestAccepting _); [|discriminate].
    eapply IH; [|exact E]. apply Forall_app. split; auto.
Qed.

End RunFacts.

(** C3: scanning is ASCII-case-insensitive and case-preserving: on [s]
    and on [upper_ascii s], [run] produces the same outcome up to token
    values (same number of tokens, same tags, same start and end offsets),
    and every token's value is the slice of the original string between
    its offsets. *)
Theorem run_case_insensitive (test : cls -> jsstr -> bool) (A : Arena)
    (start : nat) (s : jsstr) :
  shape (run test A start (upper_ascii s)) = shape (run test A start s) /\
  (forall toks, run test A start s = Ok toks ->
     Forall (fun tok => tok_v tok = js_slice s (tok_s tok) (tok_e tok)) toks) /\
  (forall toks, run test A start (upper_ascii s) = Ok toks ->
     Forall (fun tok => tok_v tok = js_slice (upper_ascii s) (tok_s tok) (tok_e tok)) toks).
Proof.
  unfold run. rewrite replace_upper_upper.
  split; [apply outer_shape; reflexivity|].
  split; intros toks E; eapply outer_sliced; eauto.
Qed.

Lemma go_path_app test A s xs ys :
  go_path test A s (xs ++ ys) =
  match go_path test A s xs with Some n => go_path test A n ys | None => None end.
Proof.
  revert s. induction xs as [|x xs IH]; intros s; simpl; auto.
  destruct (go test A s x); auto.
Qed.

Lemma sumlen_app xs ys : sumlen (xs ++ ys) = sumlen xs + sumlen ys.
Proof. unfold sumlen. rewrite concat_app, length_app. lia. Qed.

Lemma sumlen_nonneg xs : 0 <= sumlen xs.
Proof. unfold sumlen. lia. Qed.

Lemma sumlen_cons x xs : sumlen (x :: xs) = Z.of_nat (length x) + sumlen xs.
Proof. unfold sumlen. simpl. rewrite length_app. lia. Qed.

Lemma sumlen_single x : sumlen [x] = Z.of_nat (length x).
Proof. unfold sumlen. simpl. now rewrite app_nil_r. Qed.

Lemma inner_step test A start cur0 cc0 done l c n :
  inner_inv test A start cur0 cc0 done l ->
  go test A (state l) c = Some n ->
  let len := Z.of_nat (length c) in
  let '(sa, csa, la) :=
    if accepts (node A n) then (0, 0, Some n)
    else if sinceAccepts l >=? 0
    then (sinceAccepts l + len, charsSinceAccepts l + 1, latestAccepting l)
    else (sinceAccepts l, charsSinceAccepts l, latestAccepting l) in
  inner_inv test A start cur0 cc0 (done ++ [c])
    (mkLoop n (tokenLength l + len) la sa csa (cursor l + len) (charCursor l + 1)).
Proof.
  intros [Hp [Htl [Hcur [Hcc [k [la [Hla [Hk [Hkp [Hacc [Hcsa Hsa]]]]]]]]]]] Hgo.
  simpl.
  assert (Hpath : go_path test A start (done ++ [c]) = Some n).
  { rewrite go_path_app, Hp. simpl. now rewrite Hgo. }
  destruct (accepts (node A n)) eqn:Hn.
  - repeat split; simpl; auto.
    + rewrite sumlen_app, sumlen_single. lia.
    + rewrite sumlen_app, sumlen_single. lia.
    + rewrite length_app. simpl. lia.
    + exists (length (done ++ [c])), n.
      split; [reflexivity|]. split; [rewrite length_app; simpl; lia|].
      split; [rewrite firstn_all; auto|]. split; [auto|].
      split; [rewrite Nat.sub_diag; reflexivity|].
      rewrite skipn_all. reflexivity.
  - assert (Hpos : (sinceAccepts l >=? 0) = true).
    { rewrite Hsa. pose proof (sumlen_nonneg (skipn k done)). apply Z.geb_le. lia. }
    rewrite Hpos.
    repeat split; simpl; auto.
    + rewrite sumlen_app, sumlen_single. lia.
    + rewrite sumlen_app, sumlen_single. lia.
    + rewrite length_app. simpl. lia.
    + exists k, la.
      split; [auto|]. split; [rewrite length_app; simpl; lia|].
      split; [rewrite firstn_app; replace (k - length done)%nat with O by lia;
              rewrite app_nil_r; auto|].
      split; [auto|].
      split; [rewrite Hcsa, length_app; simpl; lia|].
      rewrite Hsa, skipn_app, sumlen_app.
        replace (k - length done)%nat with O by lia. simpl skipn.
        rewrite sumlen_single. lia.
Qed.

Lemma inner_run test A start cur0 cc0 rest :
  forall done l, inner_inv test A start cur0 cc0 done l ->
  exists m, (m <= length rest)%nat /\
    inner_inv test A start cur0 cc0 (done ++ firstn m rest) (inner test A rest l).
Proof.
  induction rest as [|c rest IH]; intros done l H; simpl.
  - exists O. rewrite app_nil_r. auto.
  - destruct (go test A (state l) c) as [n|] eqn:G.
    + pose proof (inner_step _ _ _ _ _ _ _ _ _ H G) as Hs. simpl in Hs.
      destruct (accepts (node A n)); [|destruct (sinceAccepts l >=? 0)];
        apply IH in Hs as [m [Hm Hi]]; exists (S m); simpl;
        (split; [lia|]); rewrite <- app_assoc in Hi; exact Hi.
    + exists O. rewrite app_nil_r. split; [lia|auto].
Qed.

(** One iteration of the outer loop when the first step from the start
    state accepts: it emits one token for the first [k >= 1] characters. *)
Lemma outer_iteration test A start (it : list jsstr) (cc : nat) c rest' n :
  skipn cc it = c :: rest' ->
  go test A start c = Some n -> accepts (node A n) = true ->
  let l := inner test A (skipn cc it)
             (mkLoop start 0 None (-1) (-1) (sumlen (firstn cc it)) (Z.of_nat cc)) in
  exists k la, (1 <= k)%nat /\ (cc + k <= length it)%nat /\
    latestAccepting l = Some la /\
    go_path test A start (firstn k (skipn cc it)) = Some la /\
    accepts (node A la) = true /\
    charCursor l - charsSinceAccepts l = Z.of_nat (cc + k) /\
    cursor l - sinceAccepts l = sumlen (firstn (cc + k) it) /\
    tokenLength l - sinceAccepts l = sumlen (firstn k (skipn cc it)).
Proof.
  intros Hs Hgo Hn l. subst l. rewrite Hs. simpl. rewrite Hgo, Hn.
  set (l1 := mkLoop n (Z.of_nat (length c)) (Some n) 0 0
               (sumlen (firstn cc it) + Z.of_nat (length c)) (Z.of_nat cc + 1)).
  assert (H1 : inner_inv test A start (sumlen (firstn cc it)) (Z.of_nat cc) [c] l1).
  { unfold inner_inv, l1. simpl. rewrite Hgo. rewrite sumlen_single.
    split; [reflexivity|]. split; [lia|]. split; [lia|]. split; [lia|].
    exists 1%nat, n. simpl. rewrite Hgo.
    repeat split; auto; try lia. }
  apply inner_run with (rest := rest') in H1 as [m [Hm H1]].
  destruct H1 as [Hp [Htl [Hcur [Hcc [k [la [Hla [Hk [Hkp [Hacc [Hcsa Hsa]]]]]]]]]]].
  set (done := [c] ++ firstn m rest') in *.
  assert (Hdone : done = firstn (S m) (skipn cc it)) by (rewrite Hs; reflexivity).
  assert (Hlen : length (skipn cc it) = (length it - cc)%nat) by apply length_skipn.
  assert (Hld : length done = S (min m (length rest'))).
  { subst done. simpl. rewrite length_firstn. reflexivity. }
  assert (Hrl : S (length rest') = (length it - cc)%nat) by (rewrite Hs in Hlen; exact Hlen).
  assert (Hfk : firstn k done = firstn k (c :: rest')).
  { rewrite Hdone, Hs, firstn_firstn. f_equal. lia. }
  exists k, la.
  split; [lia|]. split; [lia|]. split; [exact Hla|].
  split; [rewrite <- Hfk; exact Hkp|]. split; [exact Hacc|].
  split; [rewrite Hcc, Hcsa; lia|].
  assert (Hsplit : sumlen done = sumlen (firstn k done) + sumlen (skipn k done)).
  { rewrite <- sumlen_app, firstn_skipn. reflexivity. }
  split.
  - rewrite Hcur, Hsa.
    rewrite <- (firstn_skipn cc it) at 2. rewrite firstn_app.
    rewrite (firstn_all2 (n := (cc + k)%nat) (firstn cc it))
      by (rewrite length_firstn; lia).
    rewrite length_firstn. replace (cc + k - min cc (length it))%nat with k by lia.
    rewrite sumlen_app, Hs, <- Hfk. lia.
  - rewrite Htl, Hsa, <- Hfk. lia.
Qed.

Lemma firstn_plus {X} (a b : nat) (l : list X) :
  firstn (a + b) l = firstn a l ++ firstn b (skipn a l).
Proof.
  revert l. induction a as [|a IH]; intros [|x l]; simpl; auto.
  - now destruct b.
  - now rewrite IH.
Qed.

(** With a start state whose every step accepts, the outer loop emits one
    token per segment of a cut of the remaining characters into non-empty
    segments, each leading from the start state to an accepting state. *)
Lemma outer_ok test A start
    (Hstart : forall c, exists n, go test A start c = Some n /\ accepts (node A n) = true)
    str it :
  forall fuel cc toks, (length it - cc <= fuel)%nat -> (cc <= length it)%nat ->
  exists segs,
    outer test A str it (Z.of_nat (length it)) start fuel
      (sumlen (firstn cc it)) (Z.of_nat cc) toks
    = Ok (toks ++ tokens_of test A start str (sumlen (firstn cc it)) segs) /\
    concat segs = skipn cc it /\
    Forall (fun sg => sg <> []) segs /\
    Forall (fun sg => exists la, go_path test A start sg = Some la /\
                                 accepts (node A la) = true) segs.
Proof.
  induction fuel as [|fuel IH]; intros cc toks Hf Hcc;
    (destruct (Nat.lt_ge_cases cc (length it)) as [Hlt|Hge];
     [|exists []; simpl;
       replace (Z.of_nat cc <? Z.of_nat (length it)) with false
         by (symmetry; apply Z.ltb_ge; lia);
       rewrite app_nil_r, skipn_all2 by lia; repeat split; auto]).
  - lia.
  - simpl.
    replace (Z.of_nat cc <? Z.of_nat (length it)) with true
      by (symmetry; apply Z.ltb_lt; lia).
    rewrite Nat2Z.id.
    destruct (skipn cc it) as [|c rest'] eqn:Hs.
    { pose proof (length_skipn cc it) as Hl. rewrite Hs in Hl. simpl in Hl. lia. }
    destruct (Hstart c) as [n [Hgo Hn]].
    rewrite <- Hs.
    destruct (outer_iteration test A start it cc c rest' n Hs Hgo Hn)
      as [k [la [Hk1 [Hk2 [Hla [Hp [Hacc [Hcc' [Hcur Htl]]]]]]]]].
    rewrite Hla, Hcc', Hcur, Htl.
    destruct (IH (cc + k)%nat
                (toks ++ [mkToken (t (node A la))
                   (js_slice str (sumlen (firstn (cc + k) it)
                                  - sumlen (firstn k (skipn cc it)))
                      (sumlen (firstn (cc + k) it)))
                   (sumlen (firstn (cc + k) it) - sumlen (firstn k (skipn cc it)))
                   (sumlen (firstn (cc + k) it))]))
      as [segs [Hout [Hcat [Hne Hacc']]]]; [lia|lia|].
    exists (firstn k (skipn cc it) :: segs).
    rewrite Hout.
    assert (Hsum : sumlen (firstn (cc + k) it)
                   = sumlen (firstn cc it) + sumlen (firstn k (skipn cc it)))
      by (rewrite firstn_plus, sumlen_app; reflexivity).
    split; [|split; [|split]].
    + rewrite <- app_assoc. simpl. rewrite Hp, Hsum.
      replace (sumlen (firstn cc it) + sumlen (firstn k (skipn cc it))
               - sumlen (firstn k (skipn cc it))) with (sumlen (firstn cc it)) by lia.
      reflexivity.
    + simpl. rewrite Hcat.
      transitivity (firstn k (skipn cc it) ++ skipn k (skipn cc it));
        [rewrite skipn_skipn; do 2 f_equal; lia | apply firstn_skipn].
    + constructor; auto. rewrite Hs. destruct k; [lia|]. simpl. discriminate.
    + constructor; eauto.
Qed.

Lemma run_ok test A start
    (Hstart : forall c, exists n, go test A start c = Some n /\ accepts (node A n) = true)
    str :
  exists segs,
    run test A start str = Ok (tokens_of test A start str 0 segs) /\
    concat segs = stringToArray (replace_upper str) /\
    Forall (fun sg => sg <> []) segs /\
    Forall (fun sg => exists la, go_path test A start sg = Some la /\
                                 accepts (node A la) = true) segs.
Proof.
  unfold run.
  destruct (outer_ok test A start Hstart str (stringToArray (replace_upper str))
              (length (stringToArray (replace_upper str))) O [])
    as [segs [H1 H2]]; [lia|lia|].
  exists segs. simpl in H1. exact (conj H1 H2).
Qed.

Lemma js_slice_firstn (str : jsstr) (p n : Z) :
  0 <= p -> 0 <= n -> p + n <= Z.of_nat (length str) ->
  js_slice str p (p + n) = firstn (Z.to_nat n) (skipn (Z.to_nat p) str).
Proof.
  intros Hp Hn Hl. unfold js_slice.
  replace (p <? 0) with false by (symmetry; apply Z.ltb_ge; lia).
  replace (p + n <? 0) with false by (symmetry; apply Z.ltb_ge; lia).
  rewrite !Z.min_l by lia. f_equal. lia.
Qed.

Lemma tokens_of_tiles test A start str segs :
  forall p, tiles p (tokens_of test A start str p segs) (p + sumlen (concat segs)).
Proof.
  induction segs as [|sg segs IH]; intros p; simpl.
  - unfold sumlen. simpl. lia.
  - split; auto. rewrite sumlen_app, Z.add_assoc. apply IH.
Qed.

Lemma tokens_of_values test A start str segs :
  forall p, 0 <= p -> p + sumlen (concat segs) <= Z.of_nat (length str) ->
  concat (map tok_v (tokens_of test A start str p segs))
  = firstn (Z.to_nat (sumlen (concat segs))) (skipn (Z.to_nat p) str).
Proof.
  induction segs as [|sg segs IH]; intros p Hp Hl; simpl.
  - reflexivity.
  - change (concat (sg :: segs)) with (sg ++ concat segs) in Hl.
    rewrite sumlen_app in *.
    pose proof (sumlen_nonneg sg). pose proof (sumlen_nonneg (concat segs)).
    rewrite js_slice_firstn by lia. rewrite IH by lia.
    rewrite (Z2Nat.inj_add (sumlen sg)) by lia. rewrite firstn_plus, skipn_skipn.
    do 3 f_equal. lia.
Qed.

Lemma sumlen_stringToArray (s : jsstr) :
  sumlen (stringToArray (replace_upper s)) = Z.of_nat (length s).
Proof.
  unfold sumlen. destruct (stringToArray_slices (replace_upper s)) as [H _].
  rewrite H. unfold replace_upper. now rewrite length_map.
Qed.

(** The partition property, for any state machine whose start state
    accepts after any first character. *)
Lemma run_partition_generic test A start
    (Hstart : forall c, exists n, go test A start c = Some n /\ accepts (node A n) = true)
    str :
  exists toks, run test A start str = Ok toks /\
    tiles 0 toks (Z.of_nat (length str)) /\ concat (map tok_v toks) = str.
Proof.
  destruct (run_ok test A start Hstart str) as [segs [Hrun [Hcat _]]].
  exists (tokens_of test A start str 0 segs). split; [exact Hrun|].
  assert (Ht : sumlen (concat segs) = Z.of_nat (length str))
    by (rewrite Hcat; apply sumlen_stringToArray).
  split.
  - rewrite <- Ht. apply (tokens_of_tiles test A start str segs 0).
  - rewrite tokens_of_values by lia. rewrite Ht, Nat2Z.id. simpl.
    apply firstn_all.
Qed.

(** ** The construction of the machine *)

Lemma bind_run {X Y} (m : M X) (f : X -> M Y) b :
  bind m f b = f (fst (m b)) (snd (m b)).
Proof. unfold bind. now destruct (m b). Qed.

Lemma node_app_lt A x i : (i < length A)%nat -> node (A ++ [x]) i = node A i.
Proof. intros H. unfold node. now rewrite app_nth1. Qed.

Lemma node_app_len A x : node (A ++ [x]) (length A) = x.
Proof. unfold node. rewrite app_nth2 by lia. now rewrite Nat.sub_diag. Qed.

Lemma node_beyond A i : (length A <= i)%nat -> node A i = empty_state.
Proof. intros H. unfold node. now apply nth_overflow. Qed.

Lemma length_upd_nth {X} i (f : X -> X) l : length (upd_nth i f l) = length l.
Proof. revert i; induction l; intros [|i]; simpl; auto. Qed.

Lemma node_upd_eq i f A :
  (i < length A)%nat -> node (upd_nth i f A) i = f (node A i).
Proof.
  unfold node. revert i; induction A; intros [|i] H; simpl in *; try lia; auto.
  apply IHA. lia.
Qed.

Lemma node_upd_neq i k f A : i <> k -> node (upd_nth i f A) k = node A k.
Proof.
  unfold node. revert i k; induction A; intros [|i] [|k] H; simpl; auto; try congruence.
Qed.

Lemma node_upd_cases s i f A :
  node (upd_nth s f A) i = node A i \/
  (s = i /\ (i < length A)%nat /\ node (upd_nth s f A) i = f (node A i)).
Proof.
  destruct (Nat.eq_dec s i) as [<-|Hne]; [|left; now apply node_upd_neq].
  destruct (Nat.lt_ge_cases s (length A)) as [Hl|Hl].
  - right. split; [reflexivity|]. split; [exact Hl|]. now apply node_upd_eq.
  - left. rewrite !node_beyond; auto. now rewrite length_upd_nth.
Qed.

Lemma node_upd_t s i f A :
  (forall st, t (f st) = t st) -> t (node (upd_nth s f A) i) = t (node A i).
Proof.
  intros Hf. destruct (node_upd_cases s i f A) as [->|[_ [_ ->]]]; auto.
Qed.

Lemma jsstr_eqb_eq a b : jsstr_eqb a b = true <-> a = b.
Proof. unfold jsstr_eqb. destruct (list_eq_dec Z.eq_dec a b); split; congruence. Qed.

Lemma lookup_cons k k' n m :
  lookup k ((k', n) :: m) = if jsstr_eqb k k' then Some n else lookup k m.
Proof. reflexivity. Qed.

Lemma has_key_lt b s k : has_key b s k -> (s < length (arena b))%nat.
Proof.
  unfold has_key. intros H. destruct (Nat.lt_ge_cases s (length (arena b))); auto.
  rewrite node_beyond in H by lia. simpl in H. congruence.
Qed.

Lemma start_keys_single k : In k start_keys -> exists c, k = [c] /\ In c start_symbols.
Proof. unfold start_keys. rewrite in_map_iff. intros [c [<- H]]. eauto. Qed.

Lemma start_keys_fresh c : In [c] start_keys -> In c start_symbols.
Proof. intros H. apply start_keys_single in H as [c' [E H]]. now injection E as ->. Qed.

Lemma new_state_run tg jrl b :
  new_state tg jrl b = (length (arena b),
    mkBuilder (arena b ++ [mkState tg [] jrl None]) (groups b)).
Proof. reflexivity. Qed.

Lemma set_j_run s k n b :
  set_j s k n b = (Datatypes.tt, mkBuilder
    (upd_nth s (fun st => mkState (t st) ((k, n) :: j st) (jr st) (jd st)) (arena b))
    (groups b)).
Proof. reflexivity. Qed.

Lemma addToGroups_run tg fl b :
  addToGroups tg fl b = (Datatypes.tt,
    mkBuilder (arena b) (groups b ++ map (fun f => (f, tg)) fl)).
Proof. reflexivity. Qed.

Lemma fastts_loop_cons s c cs d jrl b :
  fastts_loop s (c :: cs) d jrl b =
  match lookup [c] (j (node (arena b) s)) with
  | Some n => fastts_loop n cs d jrl b
  | None => fastts_loop (length (arena b)) cs d jrl
              (snd (set_j s [c] (length (arena b)) (snd (new_state d jrl b))))
  end.
Proof. simpl. unfold bind, get_node. simpl. now destruct (lookup [c] _). Qed.

Lemma accepts_tag tg l1 l2 o : tg <> [] -> accepts (mkState tg l1 l2 o) = true.
Proof. destruct tg; [congruence|reflexivity]. Qed.

Lemma length_new_state tg jrl b :
  length (arena (snd (new_state tg jrl b))) = S (length (arena b)).
Proof. simpl. rewrite length_app. simpl. lia. Qed.

Lemma length_set_j s k n b : length (arena (snd (set_j s k n b))) = length (arena b).
Proof. simpl. apply length_upd_nth. Qed.

Lemma removelast_hd (w : jsstr) c : hd_error (removelast w) = Some c -> hd_error w = Some c.
Proof. destruct w as [|x [|y w]]; simpl; auto; discriminate. Qed.

Lemma removelast_nil (w : jsstr) : removelast w = [] -> w = [] \/ exists c, w = [c].
Proof. destruct w as [|x [|y w]]; simpl; eauto; discriminate. Qed.

Lemma start_keys_len k : In k start_keys -> length k = 1%nat.
Proof. intros H. apply start_keys_single in H as [c [-> _]]. reflexivity. Qed.

Lemma fresh_key w c : first_unit_fresh w -> hd_error w = Some c -> ~ In [c] start_keys.
Proof. intros Hw Hc H. apply (Hw c Hc). now apply start_keys_fresh. Qed.

Lemma tt_none_run s k b :
  tt s k TNone b =
  match lookup k (j (node (arena b) s)) with
  | Some n => (n, b)
  | None => (length (arena b),
             snd (set_j s k (length (arena b)) (snd (new_state [] [] b))))
  end.
Proof. unfold tt. simpl. unfold bind, get_node. simpl. now destruct (lookup k _). Qed.

Lemma tt_tag_run s k tg fl b :
  tt s k (TTag tg fl) b =
  (length (arena b),
   snd (set_j s k (length (arena b)) (snd (new_state tg [] (snd (addToGroups tg fl b)))))).
Proof. reflexivity. Qed.

Lemma ts_loop_cons s c cs b :
  ts_loop s (c :: cs) b = ts_loop (fst (tt s [c] TNone b)) cs (snd (tt s [c] TNone b)).
Proof. cbn [ts_loop]. now rewrite bind_run. Qed.

Lemma ts_cons s x w next b :
  ts s (x :: w) next b =
  tt (fst (ts_loop s (removelast (x :: w)) b)) [last (x :: w) 0] next
     (snd (ts_loop s (removelast (x :: w)) b)).
Proof. unfold ts. now rewrite bind_run. Qed.

Section ChainInv.
Variable A1 : Arena.
Variables wjr ujr : list (cls * option nat).
Variable okt : jsstr -> Prop.
Hypothesis HA1 : (0 < length A1)%nat.

Lemma ci_new_state b tg jrl :
  chain_inv A1 wjr ujr okt b -> jr_ok wjr ujr jrl -> okt tg ->
  chain_inv A1 wjr ujr okt (snd (new_state tg jrl b)).
Proof.
  intros [H1 H2 H3 H4 H5 H6 H7 H8] Hjr Ht. rewrite new_state_run.
  constructor; simpl; rewrite ?length_app; simpl.
  - lia.
  - intros i Hi. rewrite node_app_lt by lia. auto.
  - rewrite node_app_lt by lia. auto.
  - rewrite node_app_lt by lia. auto.
  - intros n Hn. rewrite node_app_lt in Hn by lia.
    destruct (H5 n Hn) as [Hb Ha].
    rewrite node_app_lt by lia. split; [lia|exact Ha].
  - intros k Hk. rewrite node_app_lt by lia. auto.
  - intros k n Hk Hn. rewrite node_app_lt in Hn by lia.
    destruct (H7 k n Hk Hn) as [Hb Ha].
    rewrite node_app_lt by lia. split; [lia|exact Ha].
  - intros i Hi. destruct (Nat.eq_dec i (length (arena b))) as [->|Hne].
    + rewrite node_app_len. simpl. split; [intros k n Hk; discriminate|auto].
    + rewrite node_app_lt by lia.
      destruct (H8 i ltac:(lia)) as [Hj [Hd [Hr Ho]]].
      split; [intros k n Hk; specialize (Hj k n Hk); lia|auto].
Qed.

Lemma ci_set_j b s k n :
  chain_inv A1 wjr ujr okt b ->
  (s = 0%nat /\ ~ In k start_keys /\ (length A1 <= n < length (arena b))%nat /\
     accepts (node (arena b) n) = true) \/
  ((length A1 <= s < length (arena b))%nat /\ (length A1 <= n < length (arena b))%nat) ->
  chain_inv A1 wjr ujr okt (snd (set_j s k n b)).
Proof.
  intros [H1 H2 H3 H4 H5 H6 H7 H8] Hs. rewrite set_j_run.
  set (f := fun st : State => mkState (t st) ((k, n) :: j st) (jr st) (jd st)).
  assert (Hft : forall st, t (f st) = t st) by reflexivity.
  assert (Hacc : forall m, accepts (node (upd_nth s f (arena b)) m)
                           = accepts (node (arena b) m))
    by (intros m; unfold accepts; now rewrite node_upd_t).
  assert (Hs0 : s = 0%nat -> node (upd_nth s f (arena b)) 0 = f (node (arena b) 0))
    by (intros ->; apply node_upd_eq; lia).
  constructor; simpl; rewrite ?length_upd_nth.
  - exact H1.
  - intros i Hi. rewrite node_upd_neq by (destruct Hs as [[-> _]|[? _]]; lia). auto.
  - destruct (Nat.eq_dec s 0) as [E|E].
    + now rewrite (Hs0 E).
    + now rewrite node_upd_neq by auto.
  - destruct (Nat.eq_dec s 0) as [E|E].
    + now rewrite (Hs0 E).
    + now rewrite node_upd_neq by auto.
  - intros m Hm. rewrite Hacc. destruct (Nat.eq_dec s 0) as [E|E].
    + rewrite (Hs0 E) in Hm. now apply H5.
    + rewrite node_upd_neq in Hm by auto. now apply H5.
  - intros k' Hk'. destruct (Nat.eq_dec s 0) as [E|E].
    + rewrite (Hs0 E). unfold f; simpl. rewrite ?lookup_cons.
      destruct (jsstr_eqb k' k) eqn:Ek; [|auto].
      apply jsstr_eqb_eq in Ek; subst k'.
      destruct Hs as [[_ [Hk _]]|[Hs _]]; [contradiction|lia].
    + rewrite node_upd_neq by auto. auto.
  - intros k' m Hk' Hm. rewrite Hacc. destruct (Nat.eq_dec s 0) as [E|E].
    + rewrite (Hs0 E) in Hm. unfold f in Hm; simpl in Hm. rewrite ?lookup_cons in Hm.
      destruct (jsstr_eqb k' k) eqn:Ek.
      * injection Hm as <-. destruct Hs as [[_ [_ [Hn Ha]]]|[Hs _]]; [auto|lia].
      * now apply (H7 k').
    + rewrite node_upd_neq in Hm by auto. now apply (H7 k').
  - intros i Hi. destruct (Nat.eq_dec s i) as [<-|E].
    + rewrite node_upd_eq by lia. unfold f; simpl.
      destruct Hs as [[-> _]|[Hs Hn]]; [lia|].
      destruct (H8 s Hi) as [Hj [Hd [Hr Ho]]]. split; [|auto].
      intros k' m. rewrite ?lookup_cons.
      destruct (jsstr_eqb k' k); [intros [= <-]; lia|apply Hj].
    + rewrite node_upd_neq by auto. auto.
Qed.

Lemma ci_addToGroups b tg fl :
  chain_inv A1 wjr ujr okt b -> chain_inv A1 wjr ujr okt (snd (addToGroups tg fl b)).
Proof. intros [H1 H2 H3 H4 H5 H6 H7 H8]. constructor; auto. Qed.

Lemma ci_fastts_loop d jrl cs : forall s b,
  chain_inv A1 wjr ujr okt b -> jr_ok wjr ujr jrl -> okt d -> d <> [] ->
  (s = 0%nat /\ (forall c, hd_error cs = Some c -> ~ In [c] start_keys)) \/
  (length A1 <= s < length (arena b))%nat ->
  chain_inv A1 wjr ujr okt (snd (fastts_loop s cs d jrl b)) /\
  (length (arena b) <= length (arena (snd (fastts_loop s cs d jrl b))))%nat /\
  ((fst (fastts_loop s cs d jrl b) = s /\ cs = []) \/
   (length A1 <= fst (fastts_loop s cs d jrl b)
      < length (arena (snd (fastts_loop s cs d jrl b))))%nat).
Proof.
  induction cs as [|c cs IH]; intros s b Hb Hjr Hd Hd0 Hs.
  - simpl. auto.
  - rewrite fastts_loop_cons.
    assert (Hn : forall n, lookup [c] (j (node (arena b) s)) = Some n ->
                 (length A1 <= n < length (arena b))%nat).
    { intros n Hn. destruct Hs as [[-> Hc]|Hs].
      - refine (proj1 (ci_start_new _ _ _ _ _ Hb [c] n _ Hn)). now apply Hc.
      - exact (proj1 (ci_chain _ _ _ _ _ Hb s Hs) [c] n Hn). }
    pose proof (ci_len _ _ _ _ _ Hb) as Hl.
    destruct (lookup [c] (j (node (arena b) s))) as [n|] eqn:E.
    + destruct (IH n b Hb Hjr Hd Hd0 (or_intror (Hn n eq_refl))) as [H1 [H2 H3]].
      split; [exact H1|]. split; [exact H2|]. right.
      destruct H3 as [[-> ->]|H3]; [specialize (Hn n eq_refl); lia|exact H3].
    + set (b1 := snd (new_state d jrl b)).
      set (b2 := snd (set_j s [c] (length (arena b)) b1)).
      assert (Hl1 : length (arena b1) = S (length (arena b))) by apply length_new_state.
      assert (Hl2 : length (arena b2) = length (arena b1)) by apply length_set_j.
      assert (Hb1 : chain_inv A1 wjr ujr okt b1) by (apply ci_new_state; auto).
      assert (Hb2 : chain_inv A1 wjr ujr okt b2).
      { apply ci_set_j; auto. destruct Hs as [[-> Hc]|Hs].
        - left. split; [reflexivity|]. split; [apply Hc; reflexivity|].
          split; [lia|]. unfold b1. simpl. rewrite node_app_len. now apply accepts_tag.
        - right. lia. }
      assert (Hr : (length A1 <= length (arena b) < length (arena b2))%nat) by lia.
      destruct (IH (length (arena b)) b2 Hb2 Hjr Hd Hd0 (or_intror Hr)) as [H1 [H2 H3]].
      split; [exact H1|]. split; [lia|]. right.
      destruct H3 as [[-> ->]|H3]; lia.
Qed.

Lemma ci_fastts b w tg d jrl :
  chain_inv A1 wjr ujr okt b -> jr_ok wjr ujr jrl -> okt d -> d <> [] ->
  okt tg -> tg <> [] -> first_unit_fresh w ->
  chain_inv A1 wjr ujr okt (snd (fastts 0 w tg d jrl b)) /\
  (length (arena b) <= length (arena (snd (fastts 0 w tg d jrl b))))%nat.
Proof.
  intros Hb Hjr Hd Hd0 Ht Ht0 Hw.
  destruct (ci_fastts_loop d jrl (removelast w) 0 b Hb Hjr Hd Hd0) as [H1 [H2 H3]].
  { left. split; [reflexivity|]. intros c Hc. eapply fresh_key; [exact Hw|].
    now apply removelast_hd. }
  unfold fastts. rewrite bind_run. cbv beta. rewrite bind_run. cbv beta.
  rewrite bind_run. cbv beta.
  set (b1 := snd (fastts_loop 0 (removelast w) d jrl b)) in *.
  set (st := fst (fastts_loop 0 (removelast w) d jrl b)) in *.
  pose proof (ci_len _ _ _ _ _ H1) as Hl.
  rewrite new_state_run. simpl fst. simpl snd.
  set (b2 := mkBuilder (arena b1 ++ [mkState tg [] jrl None]) (groups b1)).
  assert (Hb2 : chain_inv A1 wjr ujr okt b2) by (apply (ci_new_state b1); auto).
  assert (Hl2 : length (arena b2) = S (length (arena b1)))
    by (simpl; rewrite length_app; simpl; lia).
  split.
  - refine (ci_set_j b2 st (last_key w) (length (arena b1)) Hb2 _).
    destruct H3 as [[Hst Hrl]|H3].
    + left. split; [exact Hst|].
      split; [|split; [lia|simpl; rewrite node_app_len; now apply accepts_tag]].
      destruct (removelast_nil w Hrl) as [->|[c ->]].
      * intros H. apply start_keys_len in H. discriminate.
      * apply (fresh_key [c]); auto.
    + right. lia.
  - simpl. rewrite length_upd_nth, length_app. simpl. lia.
Qed.

Lemma ci_ts_loop cs : forall s b,
  chain_inv A1 wjr ujr okt b -> okt [] ->
  (s = 0%nat /\ (forall c, hd_error cs = Some c -> ~ In [c] start_keys /\ has_key b 0 [c])) \/
  (length A1 <= s < length (arena b))%nat ->
  chain_inv A1 wjr ujr okt (snd (ts_loop s cs b)) /\
  (length (arena b) <= length (arena (snd (ts_loop s cs b))))%nat /\
  ((fst (ts_loop s cs b) = s /\ cs = []) \/
   (length A1 <= fst (ts_loop s cs b) < length (arena (snd (ts_loop s cs b))))%nat).
Proof.
  induction cs as [|c cs IH]; intros s b Hb Ho Hs.
  - simpl. auto.
  - rewrite ts_loop_cons, tt_none_run.
    pose proof (ci_len _ _ _ _ _ Hb) as Hl.
    destruct (lookup [c] (j (node (arena b) s))) as [n|] eqn:E.
    + assert (Hn : (length A1 <= n < length (arena b))%nat).
      { destruct Hs as [[-> Hc]|Hs].
        - refine (proj1 (ci_start_new _ _ _ _ _ Hb [c] n _ E)). now apply Hc.
        - exact (proj1 (ci_chain _ _ _ _ _ Hb s Hs) [c] n E). }
      cbn [fst snd].
      destruct (IH n b Hb Ho (or_intror Hn)) as [H1 [H2 H3]].
      split; [exact H1|]. split; [exact H2|]. right.
      destruct H3 as [[-> ->]|H3]; [lia|exact H3].
    + assert (Hs' : (length A1 <= s < length (arena b))%nat).
      { destruct Hs as [[-> Hc]|Hs]; [|exact Hs].
        destruct (Hc c eq_refl) as [_ Hk]. contradiction. }
      cbn [fst snd].
      set (b1 := snd (new_state [] [] b)).
      set (b2 := snd (set_j s [c] (length (arena b)) b1)).
      assert (Hl1 : length (arena b1) = S (length (arena b))) by apply length_new_state.
      assert (Hl2 : length (arena b2) = length (arena b1)) by apply length_set_j.
      assert (Hb1 : chain_inv A1 wjr ujr okt b1)
        by (apply ci_new_state; auto; left; reflexivity).
      assert (Hb2 : chain_inv A1 wjr ujr okt b2) by (apply ci_set_j; auto; right; lia).
      assert (Hr : (length A1 <= length (arena b) < length (arena b2))%nat) by lia.
      destruct (IH (length (arena b)) b2 Hb2 Ho (or_intror Hr)) as [H1 [H2 H3]].
      split; [exact H1|]. split; [lia|]. right.
      destruct H3 as [[-> ->]|H3]; lia.
Qed.

Lemma ci_ts_tag b w tg fl :
  chain_inv A1 wjr ujr okt b -> okt [] -> okt tg -> tg <> [] -> first_unit_fresh w ->
  ((2 <= length w)%nat -> forall c, hd_error w = Some c -> has_key b 0 [c]) ->
  chain_inv A1 wjr ujr okt (snd (ts 0 w (TTag tg fl) b)) /\
  (length (arena b) <= length (arena (snd (ts 0 w (TTag tg fl) b))))%nat.
Proof.
  intros Hb Ho Ht Ht0 Hw Hk.
  destruct w as [|x w']; [simpl; auto|].
  destruct (ci_ts_loop (removelast (x :: w')) 0 b Hb Ho) as [H1 [H2 H3]].
  { left. split; [reflexivity|]. intros c Hc.
    assert (H2 : (2 <= length (x :: w'))%nat)
      by (destruct w' as [|y w'']; [simpl in Hc; discriminate|simpl; lia]).
    apply removelast_hd in Hc.
    split; [eapply fresh_key; eauto|].
    apply Hk; [exact H2|exact Hc]. }
  rewrite ts_cons, tt_tag_run.
  set (b1 := snd (ts_loop 0 (removelast (x :: w')) b)) in *.
  set (st := fst (ts_loop 0 (removelast (x :: w')) b)) in *.
  pose proof (ci_len _ _ _ _ _ H1) as Hl.
  set (b2 := snd (new_state tg [] (snd (addToGroups tg fl b1)))).
  assert (Hb2 : chain_inv A1 wjr ujr okt b2).
  { apply ci_new_state; auto; [apply ci_addToGroups; auto|left; reflexivity]. }
  assert (Hl2 : length (arena b2) = S (length (arena b1)))
    by (unfold b2; rewrite length_new_state; reflexivity).
  split.
  - apply ci_set_j; auto.
    destruct H3 as [[Hst Hrl]|H3].
    + left. split; [exact Hst|].
      split; [|split; [simpl in Hl2 |- *; lia|]].
      * destruct (removelast_nil (x :: w') Hrl) as [E|[c E]]; [discriminate|].
        rewrite E. simpl. apply (fresh_key [c]); auto. rewrite <- E. exact Hw.
      * unfold b2. simpl. rewrite node_app_len. now apply accepts_tag.
    + right. simpl in Hl2 |- *. lia.
  - cbn [snd]. rewrite length_set_j. lia.
Qed.

End ChainInv.

(** Literal transitions are never removed. *)

Lemma keeps_bind {X Y} (m : M X) (f : X -> M Y) :
  keeps_keys m -> (forall x, keeps_keys (f x)) -> keeps_keys (bind m f).
Proof. intros Hm Hf b s k H. rewrite bind_run. apply Hf, Hm, H. Qed.

Lemma keeps_ret {X} (x : X) : keeps_keys (ret x).
Proof. intros b s k H. exact H. Qed.

Lemma keeps_get_node s : keeps_keys (get_node s).
Proof. intros b s' k H. exact H. Qed.

Lemma keeps_new_state tg jrl : keeps_keys (new_state tg jrl).
Proof.
  intros b s k H. pose proof (has_key_lt _ _ _ H) as Hl.
  unfold has_key in *. rewrite new_state_run. simpl. now rewrite node_app_lt.
Qed.

Lemma keeps_set_j s' k' n : keeps_keys (set_j s' k' n).
Proof.
  intros b s k H. unfold has_key in *. rewrite set_j_run. simpl.
  destruct (node_upd_cases s' s
    (fun st => mkState (t st) ((k', n) :: j st) (jr st) (jd st)) (arena b))
    as [->|[_ [_ ->]]]; [exact H|].
  simpl. destruct (jsstr_eqb k k'); [discriminate|exact H].
Qed.

Lemma keeps_modify s f : (forall st, j (f st) = j st) -> keeps_keys (modify_node s f).
Proof.
  intros Hf b s' k H. unfold has_key in *. simpl.
  destruct (node_upd_cases s s' f (arena b)) as [->|[_ [_ ->]]]; [exact H|].
  now rewrite Hf.
Qed.

Lemma keeps_addToGroups tg fl : keeps_keys (addToGroups tg fl).
Proof. intros b s k H. exact H. Qed.

Lemma keeps_tt s k next : keeps_keys (tt s k next).
Proof.
  destruct next; unfold tt.
  - apply keeps_bind; [apply keeps_get_node|]. intros st.
    destruct (lookup k (j st)); [apply keeps_ret|].
    apply keeps_bind; [apply keeps_new_state|]. intros n.
    apply keeps_bind; [apply keeps_set_j|]. intros _. apply keeps_ret.
  - apply keeps_bind; [apply keeps_addToGroups|]. intros _.
    apply keeps_bind; [apply keeps_new_state|]. intros n.
    apply keeps_bind; [apply keeps_set_j|]. intros _. apply keeps_ret.
  - apply keeps_bind; [apply keeps_set_j|]. intros _. apply keeps_ret.
Qed.

Lemma keeps_ts_loop cs : forall s, keeps_keys (ts_loop s cs).
Proof.
  induction cs as [|c cs IH]; intros s; cbn [ts_loop]; [apply keeps_ret|].
  apply keeps_bind; [apply keeps_tt|]. exact IH.
Qed.

Lemma keeps_ts s w next : keeps_keys (ts s w next).
Proof.
  destruct w; unfold ts; [apply keeps_ret|].
  apply keeps_bind; [apply keeps_ts_loop|]. intros st. apply keeps_tt.
Qed.

Lemma keeps_fastts_loop d jrl cs : forall s, keeps_keys (fastts_loop s cs d jrl).
Proof.
  induction cs as [|c cs IH]; intros s; simpl; [apply keeps_ret|].
  apply keeps_bind; [apply keeps_get_node|]. intros st.
  destruct (lookup [c] (j st)); [apply IH|].
  apply keeps_bind; [apply keeps_new_state|]. intros n.
  apply keeps_bind; [apply keeps_set_j|]. intros _. apply IH.
Qed.

Lemma keeps_fastts s w tg d jrl : keeps_keys (fastts s w tg d jrl).
Proof.
  unfold fastts. apply keeps_bind; [apply keeps_fastts_loop|]. intros st.
  apply keeps_bind; [apply keeps_new_state|]. intros n.
  apply keeps_bind; [apply keeps_set_j|]. intros _. apply keeps_ret.
Qed.

Lemma keeps_for_each {X} (l : list X) f :
  (forall x, keeps_keys (f x)) -> keeps_keys (for_each l f).
Proof.
  intros Hf. induction l as [|x l IH]; simpl; [apply keeps_ret|].
  apply keeps_bind; [apply Hf|]. intros _. exact IH.
Qed.

Lemma has_key_set_j_same b s k n :
  (s < length (arena b))%nat -> has_key (snd (set_j s k n b)) s k.
Proof.
  intros Hs. unfold has_key. rewrite set_j_run. simpl.
  rewrite node_upd_eq by exact Hs. simpl.
  replace (jsstr_eqb k k) with true by (symmetry; now apply jsstr_eqb_eq).
  discriminate.
Qed.

Lemma fastts_loop_first_key s c cs d jrl b :
  (s < length (arena b))%nat -> has_key (snd (fastts_loop s (c :: cs) d jrl b)) s [c].
Proof.
  intros Hs. rewrite fastts_loop_cons.
  destruct (lookup [c] (j (node (arena b) s))) as [n|] eqn:E.
  - apply keeps_fastts_loop. unfold has_key. rewrite E. discriminate.
  - apply keeps_fastts_loop. apply has_key_set_j_same.
    rewrite length_new_state. lia.
Qed.

(** [fastts] from the start state gives it a transition on the first code
    unit of the word. *)
Lemma fastts_first_key w c tg d jrl b :
  hd_error w = Some c -> (0 < length (arena b))%nat ->
  has_key (snd (fastts 0 w tg d jrl b)) 0 [c].
Proof.
  intros Hc Hl. unfold fastts. rewrite bind_run. cbv beta. rewrite bind_run. cbv beta.
  rewrite bind_run. cbv beta. cbn [snd ret].
  destruct (removelast w) as [|c' r] eqn:Er.
  - destruct (removelast_nil w Er) as [->|[c'' ->]]; [discriminate|].
    simpl in Hc. injection Hc as ->.
    change (has_key (snd (set_j 0 [c] (length (arena b)) (snd (new_state tg jrl b)))) 0 [c]).
    apply has_key_set_j_same. rewrite length_new_state. lia.
  - assert (c' = c) as ->.
    { assert (H : hd_error (removelast w) = Some c') by now rewrite Er.
      apply removelast_hd in H. congruence. }
    apply keeps_set_j, keeps_new_state, fastts_loop_first_key. exact Hl.
Qed.

Lemma for_each_keep {X} (P R : Builder -> Prop) (l : list X) (f : X -> M unit) :
  (forall x b, In x l -> P b -> P (snd (f x b))) ->
  (forall x b, In x l -> P b -> R b -> R (snd (f x b))) ->
  forall b, P b -> R b -> P (snd (for_each l f b)) /\ R (snd (for_each l f b)).
Proof.
  induction l as [|x l IH]; intros HP HR b Hb Hr; [simpl; auto|].
  simpl for_each. rewrite bind_run. cbv beta.
  apply IH; auto; [intros; apply HP; simpl; auto|intros; apply HR; simpl; auto| |];
    [apply HP|apply HR]; simpl; auto.
Qed.

Lemma for_each_post {X} (P : Builder -> Prop) (Q : X -> Builder -> Prop)
    (l : list X) (f : X -> M unit) :
  (forall x b, In x l -> P b -> P (snd (f x b)) /\ Q x (snd (f x b))) ->
  (forall x y b, In x l -> In y l -> P b -> Q y b -> Q y (snd (f x b))) ->
  forall b, P b -> P (snd (for_each l f b)) /\
                   forall y, In y l -> Q y (snd (for_each l f b)).
Proof.
  induction l as [|x l IH]; intros Hf HQ b Hb.
  - simpl. split; [exact Hb|]. intros y [].
  - simpl for_each. rewrite bind_run. cbv beta.
    destruct (Hf x b (or_introl eq_refl) Hb) as [H1 H2].
    destruct (IH (fun x' b' H => Hf x' b' (or_intror H))
                 (fun x' y b' Hx Hy => HQ x' y b' (or_intror Hx) (or_intror Hy))
                 _ H1) as [H3 H4].
    split; [exact H3|]. intros y [<-|Hy]; [|now apply H4].
    refine (proj2 (for_each_keep P (Q x) l f _ _ _ H1 H2)).
    + intros x' b' Hx' Hb'. apply (Hf x' b' (or_intror Hx') Hb').
    + intros x' b' Hx' Hb' Hq. apply HQ; simpl; auto.
Qed.

Lemma chain_inv_arena A1 wjr ujr okt b b' :
  arena b = arena b' -> chain_inv A1 wjr ujr okt b -> chain_inv A1 wjr ujr okt b'.
Proof. intros E H. destruct b, b'. simpl in E. subst. destruct H. now constructor. Qed.

Lemma set_jd_run s n b :
  set_jd s n b = (Datatypes.tt, mkBuilder
    (upd_nth s (fun st => mkState (t st) (j st) (jr st) (Some n)) (arena b)) (groups b)).
Proof. reflexivity. Qed.

Lemma ci_set_jd_start A1 wjr ujr okt b n :
  (0 < length A1)%nat -> chain_inv A1 wjr ujr okt b ->
  (length A1 <= n < length (arena b))%nat -> accepts (node (arena b) n) = true ->
  chain_inv A1 wjr ujr okt (snd (set_jd 0 n b)) /\
  jd (node (arena (snd (set_jd 0 n b))) 0) = Some n.
Proof.
  intros HA1 [H1 H2 H3 H4 H5 H6 H7 H8] Hn Ha. rewrite set_jd_run. cbn [snd arena].
  set (f := fun st : State => mkState (t st) (j st) (jr st) (Some n)).
  assert (Hacc : forall m, accepts (node (upd_nth 0 f (arena b)) m)
                           = accepts (node (arena b) m))
    by (intros m; unfold accepts; now rewrite node_upd_t).
  assert (H0 : node (upd_nth 0 f (arena b)) 0 = f (node (arena b) 0))
    by (apply node_upd_eq; lia).
  split; [|rewrite H0; reflexivity].
  constructor; cbn [arena]; rewrite ?length_upd_nth.
  - exact H1.
  - intros i Hi. rewrite node_upd_neq by lia. auto.
  - rewrite H0. exact H3.
  - rewrite H0. exact H4.
  - rewrite H0. cbn [jd f]. intros m [= <-]. rewrite Hacc. auto.
  - intros k Hk. rewrite H0. auto.
  - intros k m Hk Hm. rewrite H0 in Hm. rewrite Hacc. now apply (H7 k).
  - intros i Hi. rewrite node_upd_neq by lia. auto.
Qed.

Lemma sort_insert_in x l y : In y (sort_insert x l) <-> x = y \/ In y l.
Proof.
  induction l as [|z l IH]; simpl; [tauto|].
  destruct (scheme_cmp x z <? 0); simpl; rewrite ?IH; tauto.
Qed.

Lemma js_sort_in l y : In y (js_sort l) <-> In y l.
Proof.
  induction l as [|x l IH]; simpl; [tauto|]. rewrite sort_insert_in, IH. tauto.
Qed.

Lemma lookup_some_in k m n : lookup k m = Some n -> In k (map fst m).
Proof.
  induction m as [|[k' n'] m IH]; simpl; [discriminate|].
  destruct (jsstr_eqb k k') eqn:E; [apply jsstr_eqb_eq in E; auto|auto].
Qed.

Lemma node_cons_S x A i : node (x :: A) (S i) = node A i.
Proof. reflexivity. Qed.

Lemma in_keys_b k l : existsb (jsstr_eqb k) l = true -> In k l.
Proof.
  induction l as [|x l IH]; simpl; [discriminate|].
  rewrite orb_true_iff, jsstr_eqb_eq. intros [->|H]; auto.
Qed.

Lemma node_S_tl A i : A <> [] -> node A (S i) = node (tl A) i.
Proof. destruct A; [congruence|reflexivity]. Qed.

Lemma fresh_b w :
  match w with [] => true | c :: _ => negb (existsb (Z.eqb c) start_symbols) end = true ->
  first_unit_fresh w.
Proof.
  destruct w as [|c w]; intros H c' Hc; simpl in Hc; [discriminate|].
  injection Hc as <-. intros Hi. apply Bool.negb_true_iff in H.
  assert (existsb (Z.eqb c) start_symbols = true)
    by (apply existsb_exists; exists c; split; [exact Hi|apply Z.eqb_refl]).
  congruence.
Qed.

Lemma node_upd_t_eq s i f A x :
  (forall st, t (f st) = t st) -> t (node A i) = x -> t (node (upd_nth s f A) i) = x.
Proof. intros Hf <-. apply node_upd_t, Hf. Qed.

Lemma snd_unit {X Y} (m : X * Builder) (y : Y) :
  snd (let (_, b') := m in (y, b')) = snd m.
Proof. now destruct m. Qed.

Ltac nonempty := let H := fresh in intro H; vm_compute in H; discriminate.

Lemma init_chain test tlds utlds cs (okt : jsstr -> Prop) :
  inputs_ok tlds utlds cs ->
  okt [] -> okt tk.TLD -> okt tk.UTLD -> okt tk.WORD -> okt tk.UWORD ->
  okt tk.SCHEME -> okt tk.SLASH_SCHEME -> okt tk.LOCALHOST -> okt tk.SYM ->
  Forall (fun sc => okt (fst sc)) cs ->
  fst (scanner test tlds utlds cs) = 0%nat /\
  chain_inv (phase1_arena test)
    [(re.ASCII_LETTER, Some 45%nat); (re.DIGIT, Some 43%nat)]
    [(re.ASCII_LETTER, None); (re.LETTER, Some 46%nat); (re.DIGIT, Some 44%nat)]
    okt (snd (scanner test tlds utlds cs)) /\
  exists sym, jd (node (arena (snd (scanner test tlds utlds cs))) 0) = Some sym /\
    t (node (arena (snd (scanner test tlds utlds cs))) sym) = tk.SYM.
Proof.
  intros Hin Ho0 Ho1 Ho2 Ho3 Ho4 Ho5 Ho6 Ho7 Ho8 Hcs.
  destruct (scanner test tlds utlds cs) as [st bf] eqn:E. cbn [fst snd].
  unfold scanner, init in E.
  cbv beta iota zeta delta -[fastts ts for_each js_sort register_custom tk.APOSTROPHE
tk.OPENBRACE tk.CLOSEBRACE tk.OPENBRACKET tk.CLOSEBRACKET tk.OPENPAREN tk.CLOSEPAREN tk.OPENANGLEBRACKET tk.CLOSEANGLEBRACKET tk.FULLWIDTHLEFTPAREN tk.FULLWIDTHRIGHTPAREN tk.LEFTCORNERBRACKET tk.RIGHTCORNERBRACKET tk.LEFTWHITECORNERBRACKET tk.RIGHTWHITECORNERBRACKET tk.FULLWIDTHLESSTHAN tk.FULLWIDTHGREATERTHAN tk.AMPERSAND tk.ASTERISK tk.AT tk.BACKTICK tk.CARET tk.COLON tk.COMMA tk.DOLLAR tk.DOT tk.EQUALS tk.EXCLAMATION tk.HYPHEN tk.PERCENT tk.PIPE tk.PLUS tk.POUND tk.QUERY tk.QUOTE tk.SLASH tk.SEMI tk.TILDE tk.UNDERSCORE tk.BACKSLASH tk.FULLWIDTHMIDDLEDOT tk.NUM tk.ASCIINUMERICAL tk.ALPHANUMERICAL tk.WORD tk.UWORD tk.NL tk.WS tk.EMOJI tk.TLD tk.UTLD tk.SCHEME tk.SLASH_SCHEME tk.LOCALHOST tk.SYM
fsm.numeric fsm.asciinumeric fsm.alpha fsm.alphanumeric fsm.ascii fsm.emoji fsm.scheme fsm.slashscheme fsm.tld fsm.utld fsm.domain fsm.whitespace phase1_arena jsstr] in E.
  match type of E with context [for_each tlds ?f ?b0] => set (B1 := b0) in E end.
  set (wjr := [(re.ASCII_LETTER, Some 45%nat); (re.DIGIT, Some 43%nat)]).
  set (ujr := [(re.ASCII_LETTER, None); (re.LETTER, Some 46%nat); (re.DIGIT, Some 44%nat)]).
  assert (HB1 : chain_inv (phase1_arena test) wjr ujr okt B1).
  { constructor.
    - unfold B1. vm_compute. lia.
    - intros [|i] Hi; [lia|].
      rewrite (node_S_tl (arena B1)), (node_S_tl (phase1_arena test))
        by (unfold B1; vm_compute; discriminate).
      f_equal; unfold B1; vm_compute; reflexivity.
    - unfold B1. vm_compute. reflexivity.
    - unfold B1. vm_compute. reflexivity.
    - unfold B1. intros n Hn. vm_compute in Hn. discriminate.
    - intros k Hk. unfold start_keys, start_symbols in Hk. simpl in Hk.
      unfold B1. repeat (destruct Hk as [<-|Hk]; [vm_compute; reflexivity|]). destruct Hk.
    - intros k n Hk Hn. exfalso. apply Hk. apply lookup_some_in in Hn.
      apply in_keys_b. revert Hn. unfold B1. vm_compute.
      intros Hn. repeat (destruct Hn as [<-|Hn]; [reflexivity|]). destruct Hn.
    - intros i Hi. exfalso. revert Hi. unfold B1. vm_compute. lia. }
  assert (HA1 : (0 < length (phase1_arena test))%nat) by (vm_compute; lia).
  set (A1 := phase1_arena test) in *. clearbody A1.
  set (R := fun b => forall w c, In w tlds -> hd_error w = Some c -> has_key b 0 [c]).
  set (P := fun b => chain_inv A1 wjr ujr okt b /\ R b).
  assert (HR : forall (m : M unit), keeps_keys m -> forall b, R b -> R (snd (m b))).
  { intros m Hm b Hb w c Hw Hc. apply Hm. exact (Hb w c Hw Hc). }
  assert (HR' : forall (m : M nat), keeps_keys m -> forall b, R b -> R (snd (m b))).
  { intros m Hm b Hb w c Hw Hc. apply Hm. exact (Hb w c Hw Hc). }
  assert (HPa : forall b b', arena b = arena b' -> P b -> P b').
  { intros b b' Eb [H1 H2]. split; [eapply chain_inv_arena; eauto|].
    intros w c Hw Hc. unfold has_key. rewrite <- Eb. exact (H2 w c Hw Hc). }
  assert (Hfastts : forall b w tg d jrl, P b -> jr_ok wjr ujr jrl -> okt d -> d <> [] ->
            okt tg -> tg <> [] -> first_unit_fresh w -> P (snd (fastts 0 w tg d jrl b))).
  { intros b w tg d jrl [H1 H2] ? ? ? ? ? ?. split.
    - now apply ci_fastts.
    - apply HR'; [apply keeps_fastts|exact H2]. }
  assert (Hts : forall b w tg fl, P b -> okt tg -> tg <> [] -> first_unit_fresh w ->
            ((2 <= length w)%nat -> exists u, In u tlds /\ hd_error u = hd_error w) ->
            P (snd (ts 0 w (TTag tg fl) b))).
  { intros b w tg fl [H1 H2] ? ? ? Hk. split.
    - apply ci_ts_tag; auto. intros Hl c Hc. destruct (Hk Hl) as [u [Hu Hu']].
      apply (H2 u c Hu). congruence.
    - apply HR'; [apply keeps_ts|exact H2]. }
  (* the TLDs *)
  match type of E with context [for_each tlds ?f B1] =>
    assert (HT : chain_inv A1 wjr ujr okt (snd (for_each tlds f B1)) /\
                 forall w, In w tlds -> forall c, hd_error w = Some c ->
                   has_key (snd (for_each tlds f B1)) 0 [c]);
    [apply (for_each_post (chain_inv A1 wjr ujr okt)
              (fun w b => forall c, hd_error w = Some c -> has_key b 0 [c]))|
     revert E HT; destruct (for_each tlds f B1) as [u1 b1]; intros E HT; cbn [snd] in HT]
  end.
  { intros x b Hx Hb. rewrite snd_unit. split.
    - apply ci_fastts; auto; [right; left; reflexivity|nonempty|nonempty|].
      apply (proj1 (Forall_forall _ _) (fresh_tlds _ _ _ Hin) x Hx).
    - intros c Hc. apply fastts_first_key; [exact Hc|].
      pose proof (ci_len _ _ _ _ _ Hb). lia. }
  { intros x y b Hx Hy Hb Hq c Hc. rewrite snd_unit. apply keeps_fastts. auto. }
  { exact HB1. }
  assert (Hb1 : P b1) by (split; [apply HT|intros w c Hw Hc; apply (proj2 HT w Hw c Hc)]).
  clear HT HB1.
  (* the UTLDs *)
  match type of E with context [for_each utlds ?f ?b0] =>
    assert (Hn : P (snd (for_each utlds f b0)));
    [refine (proj1 (for_each_keep P P utlds f _ _ b0 Hb1 Hb1))|
     clear Hb1; revert E Hn; destruct (for_each utlds f b0) as [u2 b2]; intros E Hb2]
  end.
  { intros x b Hx Hb. rewrite snd_unit. apply Hfastts; auto;
      [right; right; reflexivity|nonempty|nonempty|].
    apply (proj1 (Forall_forall _ _) (fresh_utlds _ _ _ Hin) x Hx). }
  { intros x b Hx Hb _. rewrite snd_unit. apply Hfastts; auto;
      [right; right; reflexivity|nonempty|nonempty|].
    apply (proj1 (Forall_forall _ _) (fresh_utlds _ _ _ Hin) x Hx). }
  (* file, mailto, http, https, ftp, ftps *)
  match type of E with context [fastts 0 ?w ?tg ?d ?jrl ?b0] =>
    assert (Hn : P (snd (fastts 0 w tg d jrl b0)))
      by (apply Hfastts; [eapply HPa; [|exact Hb2]; reflexivity|right; left; reflexivity
         |assumption|nonempty|assumption|nonempty|apply fresh_b; reflexivity]);
    clear Hb2; revert E Hn; destruct (fastts 0 w tg d jrl b0) as [? ?]; intros E Hb3
  end.
  match type of E with context [fastts 0 ?w ?tg ?d ?jrl ?b0] =>
    assert (Hn : P (snd (fastts 0 w tg d jrl b0)))
      by (apply Hfastts; [eapply HPa; [|exact Hb3]; reflexivity|right; left; reflexivity
         |assumption|nonempty|assumption|nonempty|apply fresh_b; reflexivity]);
    clear Hb3; revert E Hn; destruct (fastts 0 w tg d jrl b0) as [? ?]; intros E Hb4
  end.
  match type of E with context [fastts 0 ?w ?tg ?d ?jrl ?b0] =>
    assert (Hn : P (snd (fastts 0 w tg d jrl b0)))
      by (apply Hfastts; [eapply HPa; [|exact Hb4]; reflexivity|right; left; reflexivity
         |assumption|nonempty|assumption|nonempty|apply fresh_b; reflexivity]);
    clear Hb4; revert E Hn; destruct (fastts 0 w tg d jrl b0) as [? ?]; intros E Hb5
  end.
  match type of E with context [fastts 0 ?w ?tg ?d ?jrl ?b0] =>
    assert (Hn : P (snd (fastts 0 w tg d jrl b0)))
      by (apply Hfastts; [eapply HPa; [|exact Hb5]; reflexivity|right; left; reflexivity
         |assumption|nonempty|assumption|nonempty|apply fresh_b; reflexivity]);
    clear Hb5; revert E Hn; destruct (fastts 0 w tg d jrl b0) as [? ?]; intros E Hb6
  end.
  match type of E with context [fastts 0 ?w ?tg ?d ?jrl ?b0] =>
    assert (Hn : P (snd (fastts 0 w tg d jrl b0)))
      by (apply Hfastts; [eapply HPa; [|exact Hb6]; reflexivity|right; left; reflexivity
         |assumption|nonempty|assumption|nonempty|apply fresh_b; reflexivity]);
    clear Hb6; revert E Hn; destruct (fastts 0 w tg d jrl b0) as [? ?]; intros E Hb7
  end.
  match type of E with context [fastts 0 ?w ?tg ?d ?jrl ?b0] =>
    assert (Hn : P (snd (fastts 0 w tg d jrl b0)))
      by (apply Hfastts; [eapply HPa; [|exact Hb7]; reflexivity|right; left; reflexivity
         |assumption|nonempty|assumption|nonempty|apply fresh_b; reflexivity]);
    clear Hb7; revert E Hn; destruct (fastts 0 w tg d jrl b0) as [? ?]; intros E Hb8
  end.
  (* custom schemes *)
  match type of E with context [for_each (js_sort cs) (register_custom test 0) ?b0] =>
    assert (Hn : P (snd (for_each (js_sort cs) (register_custom test 0) b0)));
    [refine (proj1 (for_each_keep P P _ _ _ _ b0 _ _))|
     clear Hb8; revert E Hn; destruct (for_each (js_sort cs) (register_custom test 0) b0) as [? ?];
     intros E Hb9]
  end.
  1,2: intros [sch fl] bb Hx Hb; try intros _; unfold register_custom; rewrite bind_run;
    cbn [fst snd ret]; destruct sch as [|c w']; [exact Hb|];
    apply (proj1 (js_sort_in _ _)) in Hx;
    (apply Hts; [exact Hb|exact (proj1 (Forall_forall _ _) Hcs _ Hx)|discriminate
     |exact (proj1 (Forall_forall _ _) (fresh_schemes _ _ _ Hin) _ Hx)
     |exact (proj1 (Forall_forall _ _) (schemes_like_tld _ _ _ Hin) _ Hx)]).
  1,2: eapply HPa; [|exact Hb8]; reflexivity.
  (* localhost *)
  match type of E with context [ts 0 ?w ?tg ?b0] =>
    assert (Hn : P (snd (ts 0 w tg b0)))
      by (apply Hts; [exact Hb9|exact Ho7|nonempty|apply fresh_b; reflexivity|];
          intros _; destruct (localhost_like_tld _ _ _ Hin) as [uu [Hu Hu']];
          exists uu; split; [exact Hu|rewrite Hu'; reflexivity]);
    clear Hb9; revert E Hn; destruct (ts 0 w tg b0) as [? b10]; intros E Hb10
  end.
  (* Sym and the default edge *)
  injection E as <- <-.
  destruct Hb10 as [Hb10 _]. cbn [snd] in Hb10.
  assert (H11 : chain_inv A1 wjr ujr okt (snd (new_state tk.SYM [] b10)))
    by (eapply ci_new_state; [exact HA1|exact Hb10|left; reflexivity|exact Ho8]).
  assert (Hl : (length A1 <= length (arena b10) < length (arena (snd (new_state tk.SYM [] b10))))%nat)
    by (pose proof (ci_len _ _ _ _ _ Hb10); rewrite new_state_run; cbn [snd arena];
        rewrite length_app; cbn [length]; lia).
  assert (Ha : accepts (node (arena (snd (new_state tk.SYM [] b10))) (length (arena b10))) = true)
    by (rewrite new_state_run; cbn [snd arena]; rewrite node_app_len; reflexivity).
  destruct (ci_set_jd_start A1 wjr ujr okt _ _ HA1 H11 Hl Ha) as [Hc Hj].
  split; [reflexivity|]. split; [exact Hc|]. eexists; split; [exact Hj|].
  change (t (node (arena (snd (set_jd 0 (length (arena b10)) (snd (new_state tk.SYM [] b10)))))
             (length (arena b10))) = tk.SYM).
  rewrite set_jd_run. cbn [snd arena]. apply node_upd_t_eq; [reflexivity|].
  rewrite new_state_run. cbn [snd arena]. rewrite node_app_len. reflexivity.
Qed.

(** ** The start state of the scanner *)

Lemma lookup_in_snd k m n : lookup k m = Some n -> In n (map snd m).
Proof.
  induction m as [|[k' n'] m IH]; simpl; [discriminate|].
  destruct (jsstr_eqb k k'); [intros H; injection H; auto|auto].
Qed.

Lemma go_class_in test l c n : go_class test l c = Some n -> In (Some n) (map snd l).
Proof.
  induction l as [|[cl [m|]] l IH]; simpl; [discriminate| |auto].
  destruct (test cl c); [intros H; injection H; auto|auto].
Qed.

Lemma phase1_length test : length (phase1_arena test) = 58%nat.
Proof. vm_compute. reflexivity. Qed.

(** The transitions of the start state on [start_keys] and on classes lead
    to accepting nodes built by lines 42-147. *)
Lemma phase1_start_j test k n :
  In k start_keys -> lookup k (j (node (phase1_arena test) 0)) = Some n ->
  (0 < n < 58)%nat /\ accepts (node (phase1_arena test) n) = true.
Proof.
  intros Hk. vm_compute in Hk.
  repeat (destruct Hk as [<-|Hk];
          [vm_compute; intros H; injection H as <-; split; [lia|reflexivity]|]).
  destruct Hk.
Qed.

Lemma phase1_start_jr test c n :
  go_class test (jr (node (phase1_arena test) 0)) c = Some n ->
  (0 < n < 58)%nat /\ accepts (node (phase1_arena test) n) = true.
Proof.
  intros H. apply go_class_in in H. revert H. vm_compute.
  intros H. repeat (destruct H as [H|H]; [injection H as <-; split; [lia|reflexivity]|]). destruct H.
Qed.

(** Every code point has a transition out of the start state of the
    scanner, and it leads to an accepting node. *)
Lemma scanner_start test tlds utlds cs :
  inputs_ok tlds utlds cs ->
  fst (scanner test tlds utlds cs) = 0%nat /\
  forall c, exists n,
    go test (arena (snd (scanner test tlds utlds cs))) 0 c = Some n /\
    accepts (node (arena (snd (scanner test tlds utlds cs))) n) = true.
Proof.
  intros Hin.
  destruct (init_chain test tlds utlds cs (fun _ => True) Hin) as [Hs [Hc [sym [Hsym _]]]];
    auto; [apply Forall_forall; auto|].
  split; [exact Hs|]. intros c.
  set (b := snd (scanner test tlds utlds cs)) in *.
  pose proof (phase1_length test) as Hl.
  unfold go.
  destruct (lookup c (j (node (arena b) 0))) as [n|] eqn:E.
  - exists n. split; [reflexivity|].
    destruct (in_dec (list_eq_dec Z.eq_dec) c start_keys) as [Hk|Hk].
    + rewrite (ci_start_old _ _ _ _ _ Hc c Hk) in E.
      destruct (phase1_start_j _ _ _ Hk E) as [Hn Ha].
      rewrite (ci_old _ _ _ _ _ Hc n) by lia. exact Ha.
    + exact (proj2 (ci_start_new _ _ _ _ _ Hc c n Hk E)).
  - rewrite (ci_start_jr _ _ _ _ _ Hc).
    destruct (go_class test (jr (node (phase1_arena test) 0)) c) as [n|] eqn:E2.
    + exists n. split; [reflexivity|].
      destruct (phase1_start_jr _ _ _ E2) as [Hn Ha].
      rewrite (ci_old _ _ _ _ _ Hc n) by lia. exact Ha.
    + exists sym. split; [exact Hsym|].
      exact (proj2 (ci_start_jd _ _ _ _ _ Hc sym Hsym)).
Qed.

Lemma hd_eqb_eq a b : hd_eqb a b = true -> a = b.
Proof.
  destruct a, b; simpl; try discriminate; auto.
  intros H. apply Z.eqb_eq in H. now subst.
Qed.

Lemma inputs_okb_sound tlds utlds cs : inputs_okb tlds utlds cs = true -> inputs_ok tlds utlds cs.
Proof.
  unfold inputs_okb. rewrite !andb_true_iff, !forallb_forall.
  intros [[[[H1 H2] H3] H4] H5]. constructor.
  - apply Forall_forall. intros w Hw. apply fresh_b, H1, Hw.
  - apply Forall_forall. intros w Hw. apply fresh_b, H2, Hw.
  - apply Forall_forall. intros sc Hw. apply fresh_b, (H3 sc Hw).
  - apply Forall_forall. intros sc Hsc Hl. specialize (H4 sc Hsc).
    apply orb_true_iff in H4. destruct H4 as [H4|H4].
    + apply Nat.ltb_lt in H4. lia.
    + apply existsb_exists in H4. destruct H4 as [w [Hw He]].
      exists w. split; [exact Hw|]. now apply hd_eqb_eq.
  - apply existsb_exists in H5. destruct H5 as [w [Hw He]].
    exists w. split; [exact Hw|]. now apply hd_eqb_eq.
Qed.

(** ** Runs of the scanner *)

Lemma stringToArray_nonempty s : Forall (fun x => x <> []) (stringToArray s).
Proof.
  induction s using stringToArray_ind.
  - constructor.
  - simpl. constructor; [discriminate|constructor].
  - rewrite stringToArray_cons_single by assumption. constructor; [discriminate|assumption].
  - rewrite stringToArray_cons_pair by assumption. constructor; [discriminate|assumption].
Qed.

Lemma tokens_of_progress test A start str segs p :
  Forall (fun sg => sg <> []) segs -> Forall (fun x => x <> []) (concat segs) ->
  Forall (fun tok => tok_s tok < tok_e tok) (tokens_of test A start str p segs).
Proof.
  revert p. induction segs as [|sg segs IH]; intros p Hs Hx; simpl; [constructor|].
  inversion Hs as [|? ? Hsg Hs']; subst. simpl in Hx. apply Forall_app in Hx.
  destruct Hx as [Hx1 Hx2]. constructor; [|apply IH; assumption].
  simpl. destruct sg as [|x sg]; [congruence|]. rewrite sumlen_cons.
  pose proof (sumlen_nonneg sg). inversion Hx1 as [|? ? Hx0]; subst.
  destruct x; [congruence|]. simpl length. lia.
Qed.

Lemma concat_single {X} (segs : list (list X)) x :
  concat segs = [x] -> Forall (fun sg => sg <> []) segs -> segs = [[x]].
Proof.
  destruct segs as [|sg segs]; simpl; [discriminate|].
  intros H Hs. inversion Hs as [|? ? Hsg Hs']; subst.
  destruct sg as [|y [|z sg]]; [congruence| |discriminate].
  injection H as -> H. f_equal.
  destruct segs as [|sg' segs]; [reflexivity|].
  inversion Hs' as [|? ? Hsg' _]; subst. simpl in H.
  destruct sg'; [congruence|discriminate].
Qed.

Lemma tokenize_run test tlds utlds cs str :
  inputs_ok tlds utlds cs ->
  tokenize test tlds utlds cs str = run test (scanner_arena test tlds utlds cs) 0 str.
Proof.
  intros Hin. destruct (scanner_start test tlds utlds cs Hin) as [Hs _].
  unfold tokenize, scanner_arena. destruct (scanner test tlds utlds cs) as [st b].
  simpl in Hs. now subst.
Qed.

Lemma scanner_arena_start test tlds utlds cs :
  inputs_ok tlds utlds cs ->
  forall c, exists n, go test (scanner_arena test tlds utlds cs) 0 c = Some n /\
    accepts (node (scanner_arena test tlds utlds cs) n) = true.
Proof. intros Hin. apply (scanner_start test tlds utlds cs Hin). Qed.

(** The default transition of the start state leads to the node tagged
    [SYM] created by lines 203-204. *)
Lemma scanner_sym test tlds utlds cs :
  inputs_ok tlds utlds cs ->
  exists sym, jd (node (scanner_arena test tlds utlds cs) 0) = Some sym /\
    t (node (scanner_arena test tlds utlds cs) sym) = tk.SYM.
Proof.
  intros Hin.
  exact (proj2 (proj2 (init_chain test tlds utlds cs (fun _ => True) Hin I I I I I I I I I
              (proj2 (Forall_forall _ _) (fun _ _ => I))))).
Qed.

(** Nodes 1-57 of the scanner are those built by lines 42-147. *)
Lemma scanner_chain test tlds utlds cs :
  inputs_ok tlds utlds cs ->
  chain_inv (phase1_arena test) [(ASCII_LETTER, Some 45%nat); (DIGIT, Some 43%nat)]
    [(ASCII_LETTER, None); (LETTER, Some 46%nat); (DIGIT, Some 44%nat)]
    (fun _ => True) (snd (scanner test tlds utlds cs)).
Proof.
  intros Hin.
  exact (proj1 (proj2 (init_chain test tlds utlds cs (fun _ => True) Hin I I I I I I I I I
              (proj2 (Forall_forall _ _) (fun _ _ => I))))).
Qed.

Lemma scanner_old test tlds utlds cs i :
  inputs_ok tlds utlds cs -> (0 < i < 58)%nat ->
  node (scanner_arena test tlds utlds cs) i = node (phase1_arena test) i.
Proof.
  intros Hin Hi. apply (ci_old _ _ _ _ _ (scanner_chain test _ _ _ Hin)).
  rewrite phase1_length. exact Hi.
Qed.

Lemma scanner_go_old test tlds utlds cs i c :
  inputs_ok tlds utlds cs -> (0 < i < 58)%nat ->
  go test (scanner_arena test tlds utlds cs) i c = go test (phase1_arena test) i c.
Proof. intros Hin Hi. unfold go. now rewrite (scanner_old test _ _ _ i Hin Hi). Qed.

Lemma scanner_start_jr test tlds utlds cs :
  inputs_ok tlds utlds cs ->
  jr (node (scanner_arena test tlds utlds cs) 0) = jr (node (phase1_arena test) 0).
Proof. intros Hin. apply (ci_start_jr _ _ _ _ _ (scanner_chain test _ _ _ Hin)). Qed.

(** C1: for inputs of [init] satisfying [inputs_ok], [run(start, s)]
    returns a list of tokens that partitions [s]: the first token starts
    at 0, each token starts where the previous one ends, the last one ends
    at the length of [s], and the token values concatenate to [s]. *)
Theorem tokenize_partition test tlds utlds cs s :
  inputs_ok tlds utlds cs ->
  exists toks, tokenize test tlds utlds cs s = Ok toks /\
    tiles 0 toks (Z.of_nat (length s)) /\ concat (map tok_v toks) = s.
Proof.
  intros Hin. rewrite (tokenize_run _ _ _ _ _ Hin).
  apply run_partition_generic, (scanner_arena_start _ _ _ _ Hin).
Qed.

Lemma tokenize_partition_witness :
  inputs_ok sample_tlds [] [] /\
  exists toks, tokenize sample_test sample_tlds [] [] (js "see a.com") = Ok toks /\
    tiles 0 toks (Z.of_nat (length (js "see a.com"))) /\
    concat (map tok_v toks) = js "see a.com".
Proof.
  assert (H : inputs_ok sample_tlds [] []) by (apply inputs_okb_sound; vm_compute; reflexivity).
  split; [exact H|]. apply (tokenize_partition sample_test sample_tlds [] [] (js "see a.com") H).
Defined.

(** C10: [run(start, s)] ends for every input: the outer loop, bounded
    in the model by the number of code points of [s], returns its tokens,
    and every token spans at least one code unit, so every iteration
    consumes at least one code point. *)
Theorem tokenize_terminates test tlds utlds cs s :
  inputs_ok tlds utlds cs ->
  exists toks, tokenize test tlds utlds cs s = Ok toks /\
    Forall (fun tok => tok_s tok < tok_e tok) toks.
Proof.
  intros Hin. rewrite (tokenize_run _ _ _ _ _ Hin).
  destruct (run_ok test (scanner_arena test tlds utlds cs) 0
             (scanner_arena_start _ _ _ _ Hin) s) as [segs [Hrun [Hcat [Hne _]]]].
  eexists. split; [exact Hrun|]. apply tokens_of_progress; [exact Hne|].
  pose proof (stringToArray_nonempty (replace_upper s)) as H. rewrite <- Hcat in H. exact H.
Qed.

Lemma tokenize_terminates_witness :
  inputs_ok sample_tlds [] [] /\
  exists toks, tokenize sample_test sample_tlds [] [] (js "a.com") = Ok toks /\
    Forall (fun tok => tok_s tok < tok_e tok) toks.
Proof.
  assert (H : inputs_ok sample_tlds [] []) by (apply inputs_okb_sound; vm_compute; reflexivity).
  split; [exact H|]. apply (tokenize_terminates sample_test sample_tlds [] [] (js "a.com") H).
Defined.

(** C2 (counterexample): a lone LF, a control character, is consumed as
    an NL token, which is neither SYM nor WS. *)
Lemma tokenize_LF_NL :
  tokenize sample_test sample_tlds [] [] [LF] = Ok [mkToken tk.NL [LF] 0 1] /\
  tk.NL <> tk.SYM /\ tk.NL <> tk.WS.
Proof. split; [vm_compute; reflexivity|split; discriminate]. Qed.

(** C2 (amended): the scanner never fails: [run] returns tokens for every
    input; the default transition of the start state leads to the
    accepting state tagged SYM; and a code point with neither a literal
    nor a class transition out of the start state (after lower-casing) is
    consumed as a single SYM token.  Code points that have such a
    transition, such as LF (NL), CR and blanks (WS), are not SYM. *)
Theorem tokenize_never_fails test tlds utlds cs :
  inputs_ok tlds utlds cs ->
  (forall s, exists toks, tokenize test tlds utlds cs s = Ok toks) /\
  (exists sym, jd (node (scanner_arena test tlds utlds cs) 0) = Some sym /\
     accepts (node (scanner_arena test tlds utlds cs) sym) = true /\
     t (node (scanner_arena test tlds utlds cs) sym) = tk.SYM) /\
  (forall c,
     lookup [lower_ascii c] (j (node (scanner_arena test tlds utlds cs) 0)) = None ->
     go_class test (jr (node (scanner_arena test tlds utlds cs) 0)) [lower_ascii c] = None ->
     tokenize test tlds utlds cs [c] = Ok [mkToken tk.SYM [c] 0 1]).
Proof.
  intros Hin.
  pose proof (scanner_arena_start test _ _ _ Hin) as Hst.
  destruct (scanner_sym test tlds utlds cs Hin) as [sym [Hsym Ht]].
  assert (Hrun : forall s, tokenize test tlds utlds cs s = run test (scanner_arena test tlds utlds cs) 0 s)
    by (intros s; apply (tokenize_run test _ _ _ _ Hin)).
  set (A := scanner_arena test tlds utlds cs) in *. clearbody A.
  assert (Hsa : accepts (node A sym) = true) by (unfold accepts; rewrite Ht; reflexivity).
  split; [|split].
  - intros s. rewrite Hrun. destruct (run_ok _ _ _ Hst s) as [segs [Hr _]]. eexists; exact Hr.
  - exists sym. auto.
  - intros c Hl Hg. rewrite Hrun.
    destruct (run_ok _ _ _ Hst [c]) as [segs [Hr [Hcat [Hne _]]]].
    rewrite Hr. clear Hr.
    change (stringToArray (replace_upper [c])) with [[lower_ascii c]] in Hcat.
    rewrite (concat_single segs [lower_ascii c] Hcat Hne).
    cbn [tokens_of go_path]. unfold go at 1. rewrite Hl, Hg, Hsym, Ht. reflexivity.
Qed.

Lemma tokenize_never_fails_witness :
  inputs_ok sample_tlds [] [] /\
  tokenize sample_test sample_tlds [] [] [0] = Ok [mkToken tk.SYM [0] 0 1].
Proof.
  assert (H : inputs_ok sample_tlds [] []) by (apply inputs_okb_sound; vm_compute; reflexivity).
  split; [exact H|].
  apply (proj2 (proj2 (tokenize_never_fails sample_test sample_tlds [] [] H)) 0);
    vm_compute; reflexivity.
Defined.


(** C7 (counterexample): a DIGIT after NUM stays in NUM: [12] is one NUM
    token, not an ASCIINUMERICAL one. *)
Lemma tokenize_digits_NUM :
  tokenize sample_test sample_tlds [] [] (js "12") = Ok [mkToken tk.NUM (js "12") 0 2] /\
  tk.NUM <> tk.ASCIINUMERICAL.
Proof. split; [vm_compute; reflexivity|discriminate]. Qed.

(** C7 (amended): in the machine built by [init], the class transition on
    a DIGIT from the WORD state and on an ASCII letter from the NUM state
    reach the accepting ASCIINUMERICAL state, which loops on both DIGIT and
    ASCII letters; a DIGIT from the NUM state stays in NUM. *)
Theorem digit_after_word_num test tlds utlds cs d l :
  inputs_ok tlds utlds cs ->
  test DIGIT [d] = true -> test DIGIT [l] = false -> test ASCII_LETTER [l] = true ->
  exists num word an,
    go_class test (jr (node (scanner_arena test tlds utlds cs) 0)) [d] = Some num /\
    t (node (scanner_arena test tlds utlds cs) num) = tk.NUM /\
    go_class test (jr (node (scanner_arena test tlds utlds cs) 0)) [l] = Some word /\
    t (node (scanner_arena test tlds utlds cs) word) = tk.WORD /\
    go test (scanner_arena test tlds utlds cs) word [d] = Some an /\
    t (node (scanner_arena test tlds utlds cs) an) = tk.ASCIINUMERICAL /\
    accepts (node (scanner_arena test tlds utlds cs) an) = true /\
    go test (scanner_arena test tlds utlds cs) num [d] = Some num /\
    go test (scanner_arena test tlds utlds cs) num [l] = Some an /\
    go test (scanner_arena test tlds utlds cs) an [d] = Some an /\
    go test (scanner_arena test tlds utlds cs) an [l] = Some an.
Proof.
  intros Hin Hd Hl Hl'.
  exists 42%nat, 45%nat, 43%nat.
  rewrite (scanner_start_jr test _ _ _ Hin), !(scanner_go_old test _ _ _ _ _ Hin) by lia.
  rewrite !(scanner_old test _ _ _ _ Hin) by lia.
  vm_compute. rewrite ?Hd, ?Hl, ?Hl'.
  repeat split.
Qed.

Lemma digit_after_word_num_witness :
  inputs_ok sample_tlds [] [] /\
  exists an, go sample_test (scanner_arena sample_test sample_tlds [] []) an [49] = Some an /\
    t (node (scanner_arena sample_test sample_tlds [] []) an) = tk.ASCIINUMERICAL.
Proof.
  assert (H : inputs_ok sample_tlds [] []) by (apply inputs_okb_sound; vm_compute; reflexivity).
  split; [exact H|].
  destruct (digit_after_word_num sample_test sample_tlds [] [] 49 97 H)
    as [num [word [an [_ [_ [_ [_ [_ [H6 [_ [_ [_ [H10 _]]]]]]]]]]]]];
    [reflexivity|reflexivity|reflexivity|].
  exists an. split; [exact H10|exact H6].
Defined.

(** ** decodeTlds *)

Lemma skipn_cons_nth (enc : jsstr) i c r :
  skipn i enc = c :: r -> nth i enc 0 = c /\ skipn (S i) enc = r /\ (i < length enc)%nat.
Proof.
  revert i. induction enc as [|x enc IH]; intros [|i] H; simpl in *; try discriminate.
  - injection H as -> ->. split; [reflexivity|]. split; [reflexivity|lia].
  - destruct (IH i H) as [H1 [H2 H3]]. split; [exact H1|]. split; [exact H2|lia].
Qed.

Lemma count_digits_app ds rest :
  Forall (fun c => is_digit c = true) ds ->
  match rest with c :: _ => is_digit c = false | [] => True end ->
  count_digits (ds ++ rest) = length ds.
Proof.
  intros Hd Hr. induction Hd as [|c ds Hc Hd IH]; simpl.
  - destruct rest as [|c rest]; [reflexivity|]. simpl. now rewrite Hr.
  - now rewrite Hc, IH.
Qed.

Lemma parse_uint_acc d acc :
  fold_left (fun acc d => acc * 10 + Z.to_nat (d - 48))%nat (uint_chars d) acc
  = Nat.of_uint_acc d acc.
Proof.
  revert acc. induction d; intros acc; simpl; try reflexivity;
    rewrite IHd; f_equal; rewrite Nat.tail_mul_spec; simpl; lia.
Qed.

Lemma parseInt10_digits_of n : parseInt10 (digits_of n) = n.
Proof.
  unfold parseInt10, digits_of. rewrite parse_uint_acc.
  exact (DecimalNat.Unsigned.of_to n).
Qed.

Lemma uint_chars_digits d : Forall (fun c => is_digit c = true) (uint_chars d).
Proof. induction d; simpl; constructor; auto. Qed.

Lemma digits_of_nonempty n : digits_of n <> [].
Proof.
  intros H. pose proof (parseInt10_digits_of n) as Hp. rewrite H in Hp.
  unfold parseInt10 in Hp. simpl in Hp. subst n. discriminate.
Qed.

Lemma pop_n_firstn p s : pop_n p s = firstn (length s - p) s.
Proof.
  induction p as [|p IH]; simpl.
  - now rewrite Nat.sub_0_r, firstn_all.
  - rewrite IH, removelast_firstn_len, length_firstn, firstn_firstn. f_equal. lia.
Qed.

(** Pushing code units that are not digits. *)
Lemma decode_push enc i stack words seg r f :
  skipn i enc = seg ++ r -> no_digit seg ->
  decode_loop (length seg + f) enc i stack words
  = decode_loop f enc (i + length seg) (stack ++ seg) words.
Proof.
  revert i stack. induction seg as [|c seg IH]; intros i stack Hs Hn.
  - now rewrite Nat.add_0_r, app_nil_r.
  - inversion Hn as [|? ? Hc Hn']; subst. simpl in Hs.
    destruct (skipn_cons_nth enc i c (seg ++ r) Hs) as [H1 [H2 H3]].
    simpl. rewrite (proj2 (Nat.ltb_lt _ _) H3), Hs. simpl. rewrite Hc. simpl.
    rewrite H1, (IH (S i) (stack ++ [c]) H2 Hn').
    rewrite <- app_assoc. f_equal. lia.
Qed.

(** A run of digits: the stack becomes a word, then loses [p] units. *)
Lemma decode_pop enc i stack words p rest f :
  skipn i enc = digits_of p ++ rest ->
  match rest with c :: _ => is_digit c = false | [] => True end ->
  decode_loop (S f) enc i stack words
  = decode_loop f enc (i + length (digits_of p)) (pop_n p stack) (words ++ [stack]).
Proof.
  intros Hs Hr.
  assert (Hc : count_digits (skipn i enc) = length (digits_of p)).
  { rewrite Hs. apply count_digits_app; [exact (uint_chars_digits _)|exact Hr]. }
  assert (Hpos : (0 < length (digits_of p))%nat).
  { destruct (digits_of p) eqn:E; [now apply digits_of_nonempty in E|simpl; lia]. }
  assert (Hlt : (i < length enc)%nat).
  { pose proof (length_skipn i enc) as Hl. rewrite Hs, length_app in Hl. lia. }
  simpl. rewrite (proj2 (Nat.ltb_lt _ _) Hlt), Hc, (proj2 (Nat.ltb_lt _ _) Hpos).
  rewrite Hs, firstn_app, Nat.sub_diag, firstn_O, app_nil_r, firstn_all.
  now rewrite parseInt10_digits_of.
Qed.

Lemma decode_end enc i stack words f :
  skipn i enc = [] -> decode_loop (S f) enc i stack words = Some words.
Proof.
  intros H. simpl. replace (Nat.ltb i (length enc)) with false; [reflexivity|].
  symmetry. apply Nat.ltb_ge. pose proof (length_skipn i enc) as Hl.
  rewrite H in Hl. simpl in Hl. lia.
Qed.

Lemma lcp_le_l a b : (lcp a b <= length a)%nat.
Proof.
  revert b. induction a as [|x a IH]; intros [|y b]; simpl; try lia.
  destruct (x =? y); [specialize (IH b); lia|lia].
Qed.

Lemma lcp_firstn a b : firstn (lcp a b) a = firstn (lcp a b) b.
Proof.
  revert b. induction a as [|x a IH]; intros [|y b]; simpl; try reflexivity.
  destruct (x =? y) eqn:E; [apply Z.eqb_eq in E; subst; simpl; now rewrite IH|reflexivity].
Qed.

Lemma skipn_after (enc a b : jsstr) i :
  skipn i enc = a ++ b -> skipn (i + length a) enc = b.
Proof.
  intros H. rewrite Nat.add_comm, <- skipn_skipn, H.
  rewrite skipn_app, skipn_all, Nat.sub_diag. reflexivity.
Qed.

Lemma skipn_lt_cons (l : jsstr) n :
  (n < length l)%nat -> exists c r, skipn n l = c :: r /\ In c l.
Proof.
  revert l. induction n as [|n IH]; intros [|x l] H; simpl in *; try lia.
  - exists x, l. auto.
  - destruct (IH l ltac:(lia)) as [c [r [H1 H2]]]. exists c, r. auto.
Qed.

Lemma tld_rest_head w ws :
  Forall no_digit ws -> trie_orderb (w :: ws) = true ->
  match concat (map item_chars
          (tld_items ws (firstn match ws with [] => O | w' :: _ => lcp w w' end w))) with
  | c :: _ => is_digit c = false | [] => True end.
Proof.
  intros Hnd Hord. destruct ws as [|w' ws']; [exact I|].
  simpl in Hord. apply andb_prop in Hord as [Hlt _]. apply Nat.ltb_lt in Hlt.
  simpl. unfold item_chars at 1. simpl.
  rewrite length_firstn, Nat.min_l by apply lcp_le_l.
  destruct (skipn_lt_cons w' (lcp w w') Hlt) as [c [r [E Hin]]]. rewrite E.
  inversion Hnd as [|? ? Hw' _]; subst. exact (proj1 (Forall_forall _ _) Hw' c Hin).
Qed.

Lemma decode_tld_items ws : forall enc i prefix words f,
  Forall no_digit ws -> trie_orderb ws = true ->
  match ws with w :: _ => firstn (length prefix) w = prefix | [] => True end ->
  skipn i enc = concat (map item_chars (tld_items ws prefix)) ->
  (length (skipn i enc) < f)%nat ->
  decode_loop f enc i prefix words = Some (words ++ ws).
Proof.
  induction ws as [|w ws IH]; intros enc i prefix words f Hnd Hord Hpre Hs Hf.
  - destruct f as [|f]; [lia|]. rewrite app_nil_r. apply decode_end. exact Hs.
  - inversion Hnd as [|? ? Hw Hnd']; subst.
    set (keep := match ws with [] => O | w' :: _ => lcp w w' end).
    set (rest := concat (map item_chars (tld_items ws (firstn keep w)))).
    set (seg := skipn (length prefix) w).
    set (ds := digits_of (length w - keep)).
    assert (Hs' : skipn i enc = seg ++ ds ++ rest).
    { rewrite Hs. simpl. unfold item_chars at 1. simpl. rewrite app_assoc. reflexivity. }
    assert (Hkeep : (keep <= length w)%nat).
    { unfold keep. destruct ws as [|w' ws']; [lia|apply lcp_le_l]. }
    assert (Hpw : prefix ++ seg = w).
    { transitivity (firstn (length prefix) w ++ skipn (length prefix) w);
        [now rewrite Hpre|apply firstn_skipn]. }
    assert (Hrest : match rest with c :: _ => is_digit c = false | [] => True end).
    { exact (tld_rest_head w ws Hnd' Hord). }
    rewrite Hs', !length_app in Hf.
    replace f with (length seg + (f - length seg))%nat by lia.
    rewrite (decode_push enc i prefix words seg (ds ++ rest) _ Hs')
      by (pose proof Hw as Hw2; unfold no_digit in Hw2;
          rewrite <- (firstn_skipn (length prefix) w) in Hw2;
          exact (proj2 (proj1 (Forall_app _ _ _) Hw2))).
    rewrite Hpw.
    assert (Ef : exists f2, (f - length seg = S f2)%nat) by (exists (f - length seg - 1)%nat; lia).
    destruct Ef as [f2 Ef]. rewrite Ef.
    rewrite (decode_pop enc _ w words (length w - keep) rest f2)
      by (exact (skipn_after _ _ _ _ Hs') || exact Hrest).
    rewrite pop_n_firstn. replace (length w - (length w - keep))%nat with keep by lia.
    replace (words ++ w :: ws) with ((words ++ [w]) ++ ws)
      by (rewrite <- app_assoc; reflexivity).
    apply IH.
    + exact Hnd'.
    + destruct ws as [|w' ws']; [reflexivity|]. simpl in Hord.
      apply andb_prop in Hord as [_ H]. exact H.
    + unfold keep. destruct ws as [|w' ws']; [exact I|].
      rewrite length_firstn, Nat.min_l by apply lcp_le_l.
      symmetry. apply lcp_firstn.
    + apply skipn_after. apply (skipn_after _ _ _ _ Hs').
    + pose proof (skipn_after _ _ _ _ (skipn_after _ _ _ _ Hs')) as E2.
      fold ds. rewrite E2.
      assert (length ds > 0)%nat.
      { unfold ds. destruct (digits_of _) eqn:E; [now apply digits_of_nonempty in E|simpl; lia]. }
      lia.
Qed.

(** decodeTlds inverts the trie encoding of an ordered word list. *)
Lemma decodeTlds_encode ws :
  Forall no_digit ws -> trie_orderb ws = true ->
  decodeTlds (encode_tlds ws) = Some ws.
Proof.
  intros Hnd Hord. unfold decodeTlds.
  apply (decode_tld_items ws (encode_tlds ws) 0 [] [] _ Hnd Hord).
  - destruct ws; reflexivity.
  - reflexivity.
  - simpl. lia.
Qed.

Lemma count_digits_le s : (count_digits s <= length s)%nat.
Proof. induction s as [|c s IH]; simpl; [lia|destruct (is_digit c); simpl; lia]. Qed.

Lemma count_digits_app_nd x seg :
  no_digit seg -> count_digits (x ++ seg) = count_digits x.
Proof.
  intros Hs. induction x as [|c x IH]; simpl.
  - destruct Hs as [|c seg Hc _]; simpl; [reflexivity|now rewrite Hc].
  - destruct (is_digit c); [now rewrite IH|reflexivity].
Qed.





Lemma decode_loop_app f1 : forall f2 enc seg i stack words,
  no_digit seg -> (i <= length enc)%nat ->
  (length enc - i < f1)%nat -> (length enc + length seg - i < f2)%nat ->
  decode_loop f2 (enc ++ seg) i stack words = decode_loop f1 enc i stack words.
Proof.
  induction f1 as [|f1 IH]; intros f2 enc seg i stack words Hs Hi H1 H2; [lia|].
  destruct (Nat.eq_dec i (length enc)) as [->|Hne].
  - assert (Hsk : skipn (length enc) (enc ++ seg) = seg ++ []).
    { rewrite app_nil_r, skipn_app, skipn_all, Nat.sub_diag. reflexivity. }
    replace f2 with (length seg + S (f2 - length seg - 1))%nat by lia.
    rewrite (decode_push _ _ stack words seg [] _ Hsk Hs).
    rewrite decode_end.
    + simpl. now rewrite Nat.ltb_irrefl.
    + rewrite Nat.add_comm, <- skipn_skipn, Hsk, app_nil_r, skipn_all. reflexivity.
  - destruct f2 as [|f2]; [lia|].
    assert (Hsk : skipn i (enc ++ seg) = skipn i enc ++ seg).
    { rewrite skipn_app. replace (i - length enc)%nat with O by lia. reflexivity. }
    simpl. rewrite length_app.
    replace (Nat.ltb i (length enc + length seg)) with true by (symmetry; apply Nat.ltb_lt; lia).
    replace (Nat.ltb i (length enc)) with true by (symmetry; apply Nat.ltb_lt; lia).
    rewrite Hsk, (count_digits_app_nd _ _ Hs).
    pose proof (count_digits_le (skipn i enc)) as Hle. rewrite length_skipn in Hle.
    destruct (Nat.ltb 0 (count_digits (skipn i enc))) eqn:Hc.
    + apply Nat.ltb_lt in Hc. rewrite firstn_app.
      replace (count_digits (skipn i enc) - length (skipn i enc))%nat with O
        by (rewrite length_skipn; lia).
      rewrite firstn_O, app_nil_r. apply IH; [exact Hs|lia|lia|lia].
    + rewrite app_nth1 by lia. apply IH; [exact Hs|lia|lia|lia].
Qed.

(** Code units after the last digit run never reach the output. *)
Lemma decodeTlds_trailing enc seg :
  no_digit seg -> decodeTlds (enc ++ seg) = decodeTlds enc.
Proof.
  intros Hs. unfold decodeTlds. apply decode_loop_app; [exact Hs|lia|lia|].
  rewrite length_app. lia.
Qed.

Lemma decodeTlds_encode_witness :
  (Forall no_digit [js "co"; js "com"; js "net"; js "org"] /\
   trie_orderb [js "co"; js "com"; js "net"; js "org"] = true) /\
  decodeTlds (encode_tlds [js "co"; js "com"; js "net"; js "org"])
  = Some [js "co"; js "com"; js "net"; js "org"].
Proof.
  assert (H1 : Forall no_digit [js "co"; js "com"; js "net"; js "org"])
    by (repeat constructor).
  assert (H2 : trie_orderb [js "co"; js "com"; js "net"; js "org"] = true)
    by reflexivity.
  split; [split; [exact H1|exact H2]|].
  exact (decodeTlds_encode _ H1 H2).
Defined.

Lemma decodeTlds_trailing_witness :
  no_digit (js "ab") /\
  decodeTlds (js "aaa3bb2c12" ++ js "ab") = decodeTlds (js "aaa3bb2c12").
Proof.
  assert (H : no_digit (js "ab")) by (repeat constructor).
  split; [exact H|exact (decodeTlds_trailing _ _ H)].
Defined.

(** ** Longest match, symbols, [stringToArray] and [fastts] *)

Lemma after_step test A start cur0 cc0 done l c n :
  inner_inv test A start cur0 cc0 done l -> after_accept test A start done l ->
  go test A (state l) c = Some n ->
  let len := Z.of_nat (length c) in
  let '(sa, csa, la) :=
    if accepts (node A n) then (0, 0, Some n)
    else if sinceAccepts l >=? 0
    then (sinceAccepts l + len, charsSinceAccepts l + 1, latestAccepting l)
    else (sinceAccepts l, charsSinceAccepts l, latestAccepting l) in
  after_accept test A start (done ++ [c])
    (mkLoop n (tokenLength l + len) la sa csa (cursor l + len) (charCursor l + 1)).
Proof.
  intros [Hp [_ [_ [_ [k [la [_ [Hk [_ [_ [Hcsa Hsa]]]]]]]]]]] Ha Hgo. simpl.
  destruct (accepts (node A n)) eqn:Hn.
  - intros m Hm. simpl in Hm. lia.
  - assert (Hpos : (sinceAccepts l >=? 0) = true).
    { rewrite Hsa. pose proof (sumlen_nonneg (skipn k done)). apply Z.geb_le. lia. }
    rewrite Hpos. intros m Hm. simpl in Hm. rewrite Hcsa, length_app in Hm. simpl in Hm.
    destruct (Nat.eq_dec m (length done + 1)) as [->|Hne].
    + exists n. rewrite firstn_all2 by (rewrite length_app; simpl; lia).
      rewrite go_path_app, Hp. simpl. rewrite Hgo. auto.
    + rewrite firstn_app. replace (m - length done)%nat with O by lia.
      rewrite app_nil_r. apply Ha. rewrite Hcsa. lia.
Qed.

Lemma inner_run_munch test A start cur0 cc0 rest :
  forall done l, inner_inv test A start cur0 cc0 done l ->
  after_accept test A start done l ->
  exists m, (m <= length rest)%nat /\
    inner_inv test A start cur0 cc0 (done ++ firstn m rest) (inner test A rest l) /\
    after_accept test A start (done ++ firstn m rest) (inner test A rest l) /\
    (m = length rest \/ exists c, nth_error rest m = Some c /\
                                  go test A (state (inner test A rest l)) c = None).
Proof.
  induction rest as [|c rest IH]; intros done l H Ha; simpl.
  - exists O. rewrite app_nil_r. auto.
  - destruct (go test A (state l) c) as [n|] eqn:G.
    + pose proof (inner_step _ _ _ _ _ _ _ _ _ H G) as Hs. simpl in Hs.
      pose proof (after_step _ _ _ _ _ _ _ _ _ H Ha G) as Hs'. simpl in Hs'.
      destruct (accepts (node A n)); [|destruct (sinceAccepts l >=? 0)];
        destruct (IH _ _ Hs Hs') as [m [Hm [Hi [Ha' Hx]]]]; exists (S m); simpl;
        rewrite <- app_assoc in Hi, Ha';
        (split; [lia|]); (split; [exact Hi|]); (split; [exact Ha'|]);
        (destruct Hx as [->|Hx]; [left; reflexivity|right; exact Hx]).
    + exists O. rewrite app_nil_r. split; [lia|]. split; [exact H|]. split; [exact Ha|].
      right. exists c. auto.
Qed.

Lemma nth_error_skipn_cons {X} (l : list X) m x :
  nth_error l m = Some x -> skipn m l = x :: skipn (S m) l.
Proof.
  revert l. induction m as [|m IH]; intros [|y l] H; simpl in *; try discriminate.
  - now injection H as ->.
  - now apply IH.
Qed.

Lemma outer_iteration_munch test A start (it : list jsstr) (cc : nat) c rest' n :
  skipn cc it = c :: rest' ->
  go test A start c = Some n -> accepts (node A n) = true ->
  let l := inner test A (skipn cc it)
             (mkLoop start 0 None (-1) (-1) (sumlen (firstn cc it)) (Z.of_nat cc)) in
  exists k la, (1 <= k)%nat /\ (cc + k <= length it)%nat /\
    latestAccepting l = Some la /\
    go_path test A start (firstn k (skipn cc it)) = Some la /\
    accepts (node A la) = true /\
    charCursor l - charsSinceAccepts l = Z.of_nat (cc + k) /\
    cursor l - sinceAccepts l = sumlen (firstn (cc + k) it) /\
    tokenLength l - sinceAccepts l = sumlen (firstn k (skipn cc it)) /\
    longest test A start (firstn k (skipn cc it)) (skipn (cc + k) it).
Proof.
  intros Hs Hgo Hn l. subst l. rewrite Hs. simpl. rewrite Hgo, Hn.
  set (l1 := mkLoop n (Z.of_nat (length c)) (Some n) 0 0
               (sumlen (firstn cc it) + Z.of_nat (length c)) (Z.of_nat cc + 1)).
  assert (H1 : inner_inv test A start (sumlen (firstn cc it)) (Z.of_nat cc) [c] l1).
  { unfold inner_inv, l1. simpl. rewrite Hgo. rewrite sumlen_single.
    split; [reflexivity|]. split; [lia|]. split; [lia|]. split; [lia|].
    exists 1%nat, n. simpl. rewrite Hgo.
    repeat split; auto; try lia. }
  assert (H1' : after_accept test A start [c] l1).
  { intros m Hm. simpl in Hm. lia. }
  destruct (inner_run_munch test A start _ _ rest' [c] l1 H1 H1') as [m [Hm [H2 [Ha Hx]]]].
  set (l2 := inner test A rest' l1) in *.
  destruct H2 as [Hp [Htl [Hcur [Hcc [k [la [Hla [Hk [Hkp [Hacc [Hcsa Hsa]]]]]]]]]]].
  set (done := [c] ++ firstn m rest') in *.
  assert (Hdone : done = firstn (S m) (skipn cc it)) by (rewrite Hs; reflexivity).
  assert (Hlen : length (skipn cc it) = (length it - cc)%nat) by apply length_skipn.
  assert (Hld : length done = S m).
  { subst done. simpl. rewrite length_firstn. lia. }
  assert (Hrl : S (length rest') = (length it - cc)%nat) by (rewrite Hs in Hlen; exact Hlen).
  assert (Hfk : firstn k done = firstn k (c :: rest')).
  { rewrite Hdone, Hs, firstn_firstn. f_equal. lia. }
  exists k, la.
  split; [lia|]. split; [lia|]. split; [exact Hla|].
  split; [rewrite <- Hfk; exact Hkp|]. split; [exact Hacc|].
  split; [rewrite Hcc, Hcsa; lia|].
  assert (Hsplit : sumlen done = sumlen (firstn k done) + sumlen (skipn k done)).
  { rewrite <- sumlen_app, firstn_skipn. reflexivity. }
  split; [|split].
  - rewrite Hcur, Hsa.
    rewrite <- (firstn_skipn cc it) at 2. rewrite firstn_app.
    rewrite (firstn_all2 (n := (cc + k)%nat) (firstn cc it))
      by (rewrite length_firstn; lia).
    rewrite length_firstn. replace (cc + k - min cc (length it))%nat with k by lia.
    rewrite sumlen_app, Hs, <- Hfk. lia.
  - rewrite Htl, Hsa, <- Hfk. lia.
  - rewrite <- Hs.
    replace (skipn (cc + k) it) with (skipn k (skipn cc it))
      by (rewrite skipn_skipn; f_equal; lia).
    unfold longest. rewrite firstn_skipn, length_firstn, length_skipn.
    intros M HM.
    rewrite Nat.min_l in HM by lia.
    pose proof (length_skipn k (skipn cc it)) as HL2.
    destruct (Nat.le_gt_cases M (length done)) as [HMle|HMgt].
    + assert (E : firstn M (skipn cc it) = firstn M done).
      { rewrite Hdone, firstn_firstn. f_equal. lia. }
      rewrite E.
      destruct (Ha M) as [s [Hgs Hacs]].
      { rewrite Hcsa, Nat2Z.id. lia. }
      now rewrite Hgs.
    + destruct Hx as [Hx|[c' [Hc' Hgo']]].
      { subst m. lia. }
      assert (Hsk : skipn (S m) (skipn cc it) = c' :: skipn (S m) rest').
      { rewrite Hs. simpl. apply nth_error_skipn_cons, Hc'. }
      replace M with (S m + S (M - S m - 1))%nat by lia.
      rewrite firstn_plus, Hsk, <- Hdone, go_path_app, Hp. simpl.
      now rewrite Hgo'.
Qed.

Lemma outer_munch test A start
    (Hstart : forall c, exists n, go test A start c = Some n /\ accepts (node A n) = true)
    str it :
  forall fuel cc toks, (length it - cc <= fuel)%nat -> (cc <= length it)%nat ->
  exists segs,
    outer test A str it (Z.of_nat (length it)) start fuel
      (sumlen (firstn cc it)) (Z.of_nat cc) toks
    = Ok (toks ++ tokens_of test A start str (sumlen (firstn cc it)) segs) /\
    concat segs = skipn cc it /\ munch test A start segs /\
    Forall (fun sg => exists la, go_path test A start sg = Some la /\
                                 accepts (node A la) = true) segs.
Proof.
  induction fuel as [|fuel IH]; intros cc toks Hf Hcc;
    (destruct (Nat.lt_ge_cases cc (length it)) as [Hlt|Hge];
     [|exists []; simpl;
       replace (Z.of_nat cc <? Z.of_nat (length it)) with false
         by (symmetry; apply Z.ltb_ge; lia);
       rewrite app_nil_r, skipn_all2 by lia; repeat split; auto]).
  - lia.
  - simpl.
    replace (Z.of_nat cc <? Z.of_nat (length it)) with true
      by (symmetry; apply Z.ltb_lt; lia).
    rewrite Nat2Z.id.
    destruct (skipn cc it) as [|c rest'] eqn:Hs.
    { pose proof (length_skipn cc it) as Hl. rewrite Hs in Hl. simpl in Hl. lia. }
    destruct (Hstart c) as [n [Hgo Hn]].
    rewrite <- Hs.
    destruct (outer_iteration_munch test A start it cc c rest' n Hs Hgo Hn)
      as [k [la [Hk1 [Hk2 [Hla [Hp [Hacc [Hcc' [Hcur [Htl Hlong]]]]]]]]]].
    rewrite Hla, Hcc', Hcur, Htl.
    destruct (IH (cc + k)%nat
                (toks ++ [mkToken (t (node A la))
                   (js_slice str (sumlen (firstn (cc + k) it)
                                  - sumlen (firstn k (skipn cc it)))
                      (sumlen (firstn (cc + k) it)))
                   (sumlen (firstn (cc + k) it) - sumlen (firstn k (skipn cc it)))
                   (sumlen (firstn (cc + k) it))]))
      as [segs [Hout [Hcat [Hm Hacc']]]]; [lia|lia|].
    exists (firstn k (skipn cc it) :: segs).
    rewrite Hout.
    assert (Hsum : sumlen (firstn (cc + k) it)
                   = sumlen (firstn cc it) + sumlen (firstn k (skipn cc it)))
      by (rewrite firstn_plus, sumlen_app; reflexivity).
    split; [|split; [|split]].
    + rewrite <- app_assoc. simpl. rewrite Hp, Hsum.
      replace (sumlen (firstn cc it) + sumlen (firstn k (skipn cc it))
               - sumlen (firstn k (skipn cc it))) with (sumlen (firstn cc it)) by lia.
      reflexivity.
    + simpl. rewrite Hcat.
      transitivity (firstn k (skipn cc it) ++ skipn k (skipn cc it));
        [rewrite skipn_skipn; do 2 f_equal; lia | apply firstn_skipn].
    + simpl. rewrite Hcat. split; [exact Hlong|exact Hm].
    + constructor; eauto.
Qed.

Lemma run_munch test A start
    (Hstart : forall c, exists n, go test A start c = Some n /\ accepts (node A n) = true)
    str :
  exists segs,
    run test A start str = Ok (tokens_of test A start str 0 segs) /\
    concat segs = stringToArray (replace_upper str) /\ munch test A start segs /\
    Forall (fun sg => exists la, go_path test A start sg = Some la /\
                                 accepts (node A la) = true) segs.
Proof.
  unfold run.
  destruct (outer_munch test A start Hstart str (stringToArray (replace_upper str))
              (length (stringToArray (replace_upper str))) O [])
    as [segs [H1 H2]]; [lia|lia|].
  exists segs. simpl in H1. exact (conj H1 H2).
Qed.



Lemma phase1_symbol_leaves test :
  forallb (symbol_leaf (phase1_arena test)) symbol_units = true.
Proof. vm_compute. reflexivity. Qed.

Lemma go_path_cons test A s c cs :
  go_path test A s (c :: cs) =
  match go test A s c with Some n => go_path test A n cs | None => None end.
Proof. reflexivity. Qed.

Lemma go_lookup test A s c n : lookup c (j (node A s)) = Some n -> go test A s c = Some n.
Proof. intros H. unfold go. cbv zeta. rewrite H. reflexivity. Qed.

Lemma scanner_start_lookup test tlds utlds cs k :
  inputs_ok tlds utlds cs -> In k start_keys ->
  lookup k (j (node (scanner_arena test tlds utlds cs) 0))
  = lookup k (j (node (phase1_arena test) 0)).
Proof. intros Hin Hk. apply (ci_start_old _ _ _ _ _ (scanner_chain test _ _ _ Hin) _ Hk). Qed.

Lemma go_dead_end test A n x : dead_end (node A n) = true -> go test A n x = None.
Proof.
  unfold go, dead_end. destruct (node A n) as [t0 j0 jr0 jd0]. simpl.
  destruct j0, jr0, jd0; simpl; congruence.
Qed.

Lemma symbol_units_keys c : In c symbol_units -> In [c] start_keys.
Proof.
  intros Hc. apply (in_map (fun c => [c])). unfold symbol_units in Hc.
  rewrite <- (firstn_skipn 41 start_symbols). apply in_or_app. left. exact Hc.
Qed.

Lemma scanner_dead test tlds utlds cs n x :
  inputs_ok tlds utlds cs -> (0 < n < 58)%nat ->
  dead_end (node (phase1_arena test) n) = true ->
  go test (scanner_arena test tlds utlds cs) n x = None.
Proof.
  intros Hin Hn Hd. apply go_dead_end.
  rewrite (scanner_old test _ _ _ n Hin Hn). exact Hd.
Qed.

Lemma symbol_leaf_spec A c :
  symbol_leaf A c = true ->
  exists n, lookup [c] (j (node A 0)) = Some n /\ (0 < n < 58)%nat /\
    dead_end (node A n) = true.
Proof.
  unfold symbol_leaf. destruct (lookup [c] (j (node A 0))) as [n|]; [|discriminate].
  intros Hl. apply andb_prop in Hl as [Hn Hd]. apply andb_prop in Hn as [H0 H58].
  apply Nat.ltb_lt in H0. apply Nat.ltb_lt in H58. exists n. auto.
Qed.

Lemma scanner_symbol_leaf test tlds utlds cs c :
  inputs_ok tlds utlds cs -> In c symbol_units ->
  exists n, go test (scanner_arena test tlds utlds cs) 0 [c] = Some n /\
    forall x, go test (scanner_arena test tlds utlds cs) n x = None.
Proof.
  intros Hin Hc.
  destruct (symbol_leaf_spec _ c
    (proj1 (forallb_forall _ _) (phase1_symbol_leaves test) c Hc)) as [n [E [Hn Hd]]].
  exists n. split.
  - apply go_lookup.
    rewrite (scanner_start_lookup test _ _ _ _ Hin (symbol_units_keys c Hc)). exact E.
  - intros x. exact (scanner_dead test _ _ _ n x Hin Hn Hd).
Qed.

(** A token that starts with one of the 41 symbols of lines 58-98 is that
    symbol alone: the symbol's state has no transition. *)
Theorem tokenize_symbol_alone test tlds utlds cs s :
  inputs_ok tlds utlds cs ->
  exists segs,
    tokenize test tlds utlds cs s
    = Ok (tokens_of test (scanner_arena test tlds utlds cs) 0 s 0 segs) /\
    concat segs = stringToArray (replace_upper s) /\
    forall sg c, In sg segs -> In c symbol_units -> hd_error sg = Some [c] -> sg = [[c]].
Proof.
  intros Hin. rewrite (tokenize_run _ _ _ _ _ Hin).
  destruct (run_munch test _ _ (scanner_arena_start test _ _ _ Hin) s)
    as [segs [H1 [H2 [_ H4]]]].
  exists segs. split; [exact H1|]. split; [exact H2|].
  intros sg c Hsg Hc Hhd.
  destruct (proj1 (Forall_forall _ _) H4 sg Hsg) as [la [Hp _]].
  destruct sg as [|x r]; [discriminate Hhd|]. injection Hhd as ->.
  destruct (scanner_symbol_leaf test _ _ _ c Hin Hc) as [n [Hgo Hdead]].
  rewrite go_path_cons, Hgo in Hp.
  destruct r as [|y r]; [reflexivity|].
  rewrite go_path_cons, Hdead in Hp. discriminate Hp.
Qed.

Lemma tokenize_symbol_alone_witness :
  inputs_ok sample_tlds [] [] /\ In 46 symbol_units /\
  exists segs,
    tokenize sample_test sample_tlds [] [] (js "a..b")
    = Ok (tokens_of sample_test (scanner_arena sample_test sample_tlds [] []) 0
            (js "a..b") 0 segs) /\
    concat segs = stringToArray (replace_upper (js "a..b")) /\
    forall sg c, In sg segs -> In c symbol_units -> hd_error sg = Some [c] -> sg = [[c]].
Proof.
  assert (H : inputs_ok sample_tlds [] []) by (apply inputs_okb_sound; vm_compute; reflexivity).
  split; [exact H|]. split; [vm_compute; tauto|].
  apply (tokenize_symbol_alone sample_test sample_tlds [] [] (js "a..b") H).
Defined.

Lemma last_cons2 (x y : Z) rest : last (x :: y :: rest) 0 = last (y :: rest) 0.
Proof. reflexivity. Qed.

Lemma stringToArray_cons2 (first second : Z) rest :
  stringToArray (first :: second :: rest) =
  if (first <? 0xd800) || (0xdbff <? first) || (second <? 0xdc00) || (0xdfff <? second)
  then [first] :: stringToArray (second :: rest)
  else [first; second] :: stringToArray rest.
Proof. reflexivity. Qed.

(** [stringToArray] distributes over a concatenation that does not put a
    high surrogate right before a low surrogate. *)
Theorem stringToArray_app (a b : jsstr) :
  is_high (last a 0) && is_low (hd 0 b) = false ->
  stringToArray (a ++ b) = stringToArray a ++ stringToArray b.
Proof.
  revert b. induction a as [| c | first second rest C IH | first second rest C IH]
    using stringToArray_ind; intros b Hb.
  - reflexivity.
  - destruct b as [|d b']; [reflexivity|]. simpl in Hb |- *.
    destruct ((c <? 0xd800) || (0xdbff <? c) || (d <? 0xdc00) || (0xdfff <? d)) eqn:E;
      [reflexivity|].
    apply pair_cond_false in E as [E1 E2]. rewrite E1, E2 in Hb. discriminate Hb.
  - rewrite last_cons2 in Hb.
    change ((first :: second :: rest) ++ b) with (first :: second :: (rest ++ b)).
    rewrite !stringToArray_cons2, C. simpl. f_equal.
    exact (IH b Hb).
  - change ((first :: second :: rest) ++ b) with (first :: second :: (rest ++ b)).
    rewrite !stringToArray_cons2, C. simpl. f_equal. apply IH.
    destruct rest as [|r rest]; [reflexivity|].
    rewrite !last_cons2 in Hb. exact Hb.
Qed.

Lemma lookup_in k m n : lookup k m = Some n -> In (k, n) m.
Proof.
  induction m as [|[k' n'] m IH]; simpl; [discriminate|].
  destruct (jsstr_eqb k k') eqn:E.
  - intros H. injection H as <-. apply jsstr_eqb_eq in E. subst. left. reflexivity.
  - intros H. right. exact (IH H).
Qed.

Lemma forwardb_sound A : forwardb A = true -> forward A.
Proof.
  intros H i k n Hl.
  destruct (Nat.lt_ge_cases i (length A)) as [Hi|Hi].
  - apply (proj1 (forallb_forall _ _)) with (x := i) in H; [|apply in_seq; lia].
    apply (proj1 (forallb_forall _ _)) with (x := (k, n)) in H; [|exact (lookup_in _ _ _ Hl)].
    apply andb_prop in H as [H1 H2]. apply Nat.ltb_lt in H1. apply Nat.ltb_lt in H2. simpl in H1, H2. lia.
  - rewrite node_beyond in Hl by exact Hi. discriminate Hl.
Qed.

Lemma walk_app A s xs ys :
  walk A s (xs ++ ys) = match walk A s xs with Some m => walk A m ys | None => None end.
Proof.
  revert s. induction xs as [|x xs IH]; intros s; simpl; [reflexivity|].
  destruct (lookup [x] (j (node A s))); [apply IH|reflexivity].
Qed.

Lemma walk_le A s cs st : forward A -> walk A s cs = Some st -> (s <= st)%nat.
Proof.
  intros HF. revert s. induction cs as [|c cs IH]; intros s H; simpl in H.
  - injection H as ->. lia.
  - destruct (lookup [c] (j (node A s))) as [n|] eqn:E; [|discriminate H].
    apply HF in E. apply IH in H. lia.
Qed.

Lemma walk_stable A A' s cs st :
  forward A -> walk A s cs = Some st ->
  (forall i, (i < st)%nat -> node A' i = node A i) -> walk A' s cs = Some st.
Proof.
  intros HF. revert s. induction cs as [|c cs IH]; intros s H Hn; simpl in *; [exact H|].
  destruct (lookup [c] (j (node A s))) as [n|] eqn:E; [|discriminate H].
  pose proof (HF _ _ _ E) as Hsn. pose proof (walk_le _ _ _ _ HF H) as Hnst.
  rewrite (Hn s) by lia. rewrite E. exact (IH n H Hn).
Qed.

Lemma walk_go_path test A s cs st :
  walk A s cs = Some st -> go_path test A s (map (fun c => [c]) cs) = Some st.
Proof.
  revert s. induction cs as [|c cs IH]; intros s H; simpl in *; [exact H|].
  unfold go. cbv zeta.
  destruct (lookup [c] (j (node A s))) as [n|]; [exact (IH n H)|discriminate H].
Qed.

Lemma lookup_set_same k n m : lookup k ((k, n) :: m) = Some n.
Proof. simpl. now rewrite (proj2 (jsstr_eqb_eq k k) eq_refl). Qed.

Lemma lookup_set_other k k' n m : k <> k' -> lookup k ((k', n) :: m) = lookup k m.
Proof.
  intros Hne. simpl. destruct (jsstr_eqb k k') eqn:E; [|reflexivity].
  apply jsstr_eqb_eq in E. contradiction.
Qed.

(** The loop of [fastts] on a forward arena. *)
Lemma fastts_loop_spec d jrl cs : forall s b,
  forward (arena b) -> (s < length (arena b))%nat ->
  forward (arena (snd (fastts_loop s cs d jrl b))) /\
  (length (arena b) <= length (arena (snd (fastts_loop s cs d jrl b))))%nat /\
  (fst (fastts_loop s cs d jrl b) < length (arena (snd (fastts_loop s cs d jrl b))))%nat /\
  walk (arena (snd (fastts_loop s cs d jrl b))) s cs = Some (fst (fastts_loop s cs d jrl b)) /\
  (forall i k n, lookup k (j (node (arena b) i)) = Some n ->
     lookup k (j (node (arena (snd (fastts_loop s cs d jrl b))) i)) = Some n).
Proof.
  induction cs as [|c cs IH]; intros s b HF Hs.
  - simpl. split; [exact HF|]. split; [lia|]. split; [exact Hs|]. split; [reflexivity|]. auto.
  - rewrite fastts_loop_cons.
    destruct (lookup [c] (j (node (arena b) s))) as [n|] eqn:E.
    + pose proof (HF _ _ _ E) as Hsn.
      destruct (IH n b HF ltac:(lia)) as [H1 [H2 [H3 [H4 H5]]]].
      split; [exact H1|]. split; [exact H2|]. split; [exact H3|]. split; [|exact H5].
      simpl. rewrite (H5 _ _ _ E). exact H4.
    + set (L := length (arena b)).
      set (b1 := snd (set_j s [c] L (snd (new_state d jrl b)))).
      assert (Hb1 : arena b1 = upd_nth s (fun st => mkState (t st) (([c], L) :: j st) (jr st) (jd st))
                                 (arena b ++ [mkState d [] jrl None])) by reflexivity.
      assert (Hlen1 : length (arena b1) = S L).
      { rewrite Hb1, length_upd_nth, length_app. simpl. unfold L. lia. }
      assert (Hnode : forall i, node (arena b1) i =
                if Nat.eq_dec i s
                then mkState (t (node (arena b) s)) (([c], L) :: j (node (arena b) s))
                       (jr (node (arena b) s)) (jd (node (arena b) s))
                else node (arena b ++ [mkState d [] jrl None]) i).
      { intros i. rewrite Hb1. destruct (Nat.eq_dec i s) as [->|Hne].
        - rewrite node_upd_eq by (rewrite length_app; simpl; lia).
          now rewrite node_app_lt by exact Hs.
        - apply node_upd_neq. congruence. }
      assert (Hpres : forall i k n, lookup k (j (node (arena b) i)) = Some n ->
                        lookup k (j (node (arena b1) i)) = Some n).
      { intros i k n Hl. rewrite Hnode. destruct (Nat.eq_dec i s) as [->|Hne].
        - cbn [j]. rewrite lookup_set_other; [exact Hl|]. intros ->. congruence.
        - rewrite node_app_lt; [exact Hl|]. pose proof (HF _ _ _ Hl). lia. }
      assert (HF1 : forward (arena b1)).
      { intros i k n Hl. rewrite Hlen1. rewrite Hnode in Hl.
        destruct (Nat.eq_dec i s) as [->|Hne].
        - cbn [j] in Hl. destruct (list_eq_dec Z.eq_dec k [c]) as [->|Hk].
          + rewrite lookup_set_same in Hl. injection Hl as <-. unfold L. lia.
          + rewrite lookup_set_other in Hl by exact Hk. apply HF in Hl. lia.
        - destruct (Nat.lt_ge_cases i L) as [Hi|Hi].
          + rewrite node_app_lt in Hl by exact Hi. apply HF in Hl. lia.
          + destruct (Nat.eq_dec i L) as [->|Hi'].
            * unfold L in Hl. rewrite node_app_len in Hl. discriminate Hl.
            * rewrite node_beyond in Hl by (rewrite length_app; simpl; unfold L in *; lia).
              discriminate Hl. }
      destruct (IH L b1 HF1 ltac:(lia)) as [H1 [H2 [H3 [H4 H5]]]].
      split; [exact H1|]. split; [lia|]. split; [exact H3|]. split.
      * simpl. rewrite (H5 s [c] L); [exact H4|].
        rewrite Hnode. destruct (Nat.eq_dec s s) as [_|]; [|congruence].
        apply lookup_set_same.
      * intros i k n Hl. apply H5, Hpres, Hl.
Qed.

(** On an arena whose literal transitions lead forward, after
    [fastts(state, input, t, ...)] with a non-empty [input], following the
    code units of [input] from [state] leads to the returned node, which
    carries the token [t]. *)
Theorem fastts_reaches test s w tg d jrl b :
  w <> [] -> forward (arena b) -> (s < length (arena b))%nat ->
  go_path test (arena (snd (fastts s w tg d jrl b))) s (map (fun c => [c]) w)
    = Some (fst (fastts s w tg d jrl b)) /\
  t (node (arena (snd (fastts s w tg d jrl b))) (fst (fastts s w tg d jrl b))) = tg.
Proof.
  intros Hw HF Hs.
  destruct (fastts_loop_spec d jrl (removelast w) s b HF Hs) as [H1 [H2 [H3 [H4 _]]]].
  unfold fastts. rewrite !bind_run.
  set (st := fst (fastts_loop s (removelast w) d jrl b)) in *.
  set (b1 := snd (fastts_loop s (removelast w) d jrl b)) in *.
  set (x := mkState tg [] jrl None).
  assert (Hlk : last_key w = [last w 0]) by (destruct w; [congruence|reflexivity]).
  set (A3 := upd_nth st (fun st0 => mkState (t st0) ((last_key w, length (arena b1)) :: j st0)
                           (jr st0) (jd st0)) (arena b1 ++ [x])).
  change (go_path test A3 s (map (fun c => [c]) w) = Some (length (arena b1)) /\
          t (node A3 (length (arena b1))) = tg).
  assert (Hold : forall i, (i < st)%nat -> node A3 i = node (arena b1) i).
  { intros i Hi. unfold A3. rewrite node_upd_neq by lia. apply node_app_lt. lia. }
  split.
  - apply walk_go_path.
    rewrite (app_removelast_last 0 Hw) at 1. rewrite walk_app.
    rewrite (walk_stable _ A3 _ _ _ H1 H4 Hold). simpl.
    unfold A3. rewrite node_upd_eq by (rewrite length_app; simpl; lia). cbn [j].
    rewrite Hlk, lookup_set_same. reflexivity.
  - unfold A3. rewrite node_upd_neq by lia. rewrite node_app_len. reflexivity.
Qed.

Lemma fastts_loop_walk d jrl cs : forall s b st,
  walk (arena b) s cs = Some st -> fastts_loop s cs d jrl b = (st, b).
Proof.
  induction cs as [|c cs IH]; intros s b st H; simpl in H.
  - injection H as <-. reflexivity.
  - rewrite fastts_loop_cons.
    destruct (lookup [c] (j (node (arena b) s))) as [n|]; [exact (IH n b st H)|discriminate H].
Qed.

(** When the literal path of all but the last code unit of [input]
    already exists, [fastts] creates exactly one node, the one it returns,
    and changes no existing node other than the end of that path. *)
Theorem fastts_shares_prefix s w tg d jrl b st :
  walk (arena b) s (removelast w) = Some st ->
  fst (fastts s w tg d jrl b) = length (arena b) /\
  length (arena (snd (fastts s w tg d jrl b))) = S (length (arena b)) /\
  forall i, (i < length (arena b))%nat -> i <> st ->
    node (arena (snd (fastts s w tg d jrl b))) i = node (arena b) i.
Proof.
  intros Hw. unfold fastts. rewrite !bind_run.
  rewrite (fastts_loop_walk d jrl _ _ _ _ Hw). simpl.
  split; [reflexivity|]. split.
  - rewrite length_upd_nth, length_app. simpl. lia.
  - intros i Hi Hne. rewrite node_upd_neq by congruence. apply node_app_lt, Hi.
Qed.

Lemma lower_pair_cond (first second : Z) :
  (lower_ascii first <? 0xd800) || (0xdbff <? lower_ascii first)
  || (lower_ascii second <? 0xdc00) || (0xdfff <? lower_ascii second)
  = (first <? 0xd800) || (0xdbff <? first) || (second <? 0xdc00) || (0xdfff <? second).
Proof.
  destruct ((first <? 0xd800) || (0xdbff <? first) || (second <? 0xdc00)
            || (0xdfff <? second)) eqn:E.
  - apply not_false_iff_true. intros H. apply pair_cond_false in H as [H1 H2].
    revert H1 H2. unfold is_high, is_low, lower_ascii.
    rewrite !orb_true_iff, !Z.ltb_lt in E.
    destruct ((65 <=? first) && (first <=? 90)) eqn:F1;
    destruct ((65 <=? second) && (second <=? 90)) eqn:F2;
    rewrite ?andb_true_iff, ?andb_false_iff, ?Z.leb_le, ?Z.leb_gt in F1, F2 |- *; lia.
  - apply pair_cond_false in E as [H1 H2]. apply pair_cond_false.
    revert H1 H2. unfold is_high, is_low, lower_ascii.
    destruct ((65 <=? first) && (first <=? 90)) eqn:F1;
    destruct ((65 <=? second) && (second <=? 90)) eqn:F2;
    rewrite ?andb_true_iff, ?andb_false_iff, ?Z.leb_le, ?Z.leb_gt in F1, F2 |- *; lia.
Qed.

(** Lower-casing ASCII letters commutes with cutting a string into code
    points. *)
Theorem stringToArray_replace_upper (s : jsstr) :
  stringToArray (replace_upper s) = map replace_upper (stringToArray s).
Proof.
  induction s as [| c | first second rest C IH | first second rest C IH]
    using stringToArray_ind.
  - reflexivity.
  - reflexivity.
  - change (replace_upper (first :: second :: rest))
      with (lower_ascii first :: lower_ascii second :: replace_upper rest).
    rewrite !stringToArray_cons2, lower_pair_cond, C. simpl map. f_equal. exact IH.
  - change (replace_upper (first :: second :: rest))
      with (lower_ascii first :: lower_ascii second :: replace_upper rest).
    rewrite !stringToArray_cons2, lower_pair_cond, C. simpl map. f_equal. exact IH.
Qed.

Lemma stringToArray_app_witness :
  is_high (last (js "a" ++ [0xd83d]) 0) && is_low (hd 0 (js "b")) = false /\
  stringToArray ((js "a" ++ [0xd83d]) ++ js "b")
  = stringToArray (js "a" ++ [0xd83d]) ++ stringToArray (js "b").
Proof.
  assert (H : is_high (last (js "a" ++ [0xd83d]) 0) && is_low (hd 0 (js "b")) = false)
    by reflexivity.
  split; [exact H|exact (stringToArray_app _ _ H)].
Defined.

Lemma fastts_reaches_witness :
  (js "com" <> [] /\ forward (arena sample_builder) /\ (0 < length (arena sample_builder))%nat) /\
  go_path sample_test (arena (snd (fastts 0 (js "com") tk.TLD tk.WORD [] sample_builder))) 0
    (map (fun c => [c]) (js "com"))
    = Some (fst (fastts 0 (js "com") tk.TLD tk.WORD [] sample_builder)) /\
  t (node (arena (snd (fastts 0 (js "com") tk.TLD tk.WORD [] sample_builder)))
       (fst (fastts 0 (js "com") tk.TLD tk.WORD [] sample_builder))) = tk.TLD.
Proof.
  assert (H1 : js "com" <> []) by discriminate.
  assert (H2 : forward (arena sample_builder)) by (apply forwardb_sound; vm_compute; reflexivity).
  assert (H3 : (0 < length (arena sample_builder))%nat) by (vm_compute; lia).
  split; [split; [exact H1|split; [exact H2|exact H3]]|].
  exact (fastts_reaches sample_test 0 (js "com") tk.TLD tk.WORD [] sample_builder H1 H2 H3).
Defined.

Lemma fastts_shares_prefix_witness :
  walk (arena sample_builder) 0 (removelast (js "com")) = Some 2%nat /\
  fst (fastts 0 (js "com") tk.TLD tk.WORD [] sample_builder) = length (arena sample_builder) /\
  length (arena (snd (fastts 0 (js "com") tk.TLD tk.WORD [] sample_builder)))
    = S (length (arena sample_builder)) /\
  forall i, (i < length (arena sample_builder))%nat -> i <> 2%nat ->
    node (arena (snd (fastts 0 (js "com") tk.TLD tk.WORD [] sample_builder))) i
    = node (arena sample_builder) i.
Proof.
  assert (H : walk (arena sample_builder) 0 (removelast (js "com")) = Some 2%nat)
    by (vm_compute; reflexivity).
  split; [exact H|].
  exact (fastts_shares_prefix 0 (js "com") tk.TLD tk.WORD [] sample_builder 2 H).
Defined.
